(** * Lendaswap client SDK: storage providers, lifecycle states, index
      counter and swap creation, embedded from the TypeScript sources.

    Layout: the definitions come first (JavaScript values and objects, the
    Dexie tables, the two storage providers, the [Client] wrappers, the
    swap status vocabulary, then the parts of the wallet that live in the
    WASM core and are modelled from the specification); the theorems
    follow. *)

From stdpp Require Import base option list list_numbers sorting strings numbers
  countable gmap fin_maps pretty.

#[local] Set Warnings "-register-all,-clear-no-such-hyp".

(* ===================================================================== *)
(** ** Results of fallible (promise-returning) operations *)
(* ===================================================================== *)

(** Error kinds. [DataError] is what IndexedDB raises when a record put
    into a table with an inbound key has no valid key at its key path;
    [BackendFailure] stands for any rejection coming out of the WASM
    client. The other kinds are the ones the specification names. *)
Inductive Error : Type :=
| InvalidSeed
| IndexOutOfRange
| UnknownSwapStatus (wire : string)
| DataError
| BackendFailure (message : string).

Inductive Result (A : Type) : Type :=
| Ok (a : A)
| Err (e : Error).
Arguments Ok {A} a.
Arguments Err {A} e.

(** A state-and-error monad for code that threads a store through a
    sequence of awaited calls: a rejected promise is an [Err], and the
    store is returned in both cases. *)
Definition M (S A : Type) : Type := S → Result A * S.

Definition M_ret {S A : Type} (a : A) : M S A := λ s, (Ok a, s).

Definition M_bind {S A B : Type} (m : M S A) (k : A → M S B) : M S B :=
  λ s, match m s with
       | (Ok a, s') => k a s'
       | (Err e, s') => (Err e, s')
       end.

Definition M_lift {S A : Type} (r : Result A) : M S A := λ s, (r, s).

Definition M_read {S A : Type} (f : S → A) : M S A := λ s, (Ok (f s), s).

Definition M_write {S : Type} (f : S → S) : M S unit := λ s, (Ok tt, f s).

(** The value a computation resolves to, and the store it leaves. *)
Definition M_eval {S A : Type} (m : M S A) (s : S) : Result A := (m s).1.

Definition M_exec {S A : Type} (m : M S A) (s : S) : S := (m s).2.

Declare Scope M_scope.
Delimit Scope M_scope with M.
Notation "'let*' x ':=' m 'in' k" := (M_bind m (λ x, k))
  (at level 10, x name, m at level 100, k at level 200) : M_scope.

(* ===================================================================== *)
(** ** JavaScript values and plain objects *)
(* ===================================================================== *)

(** The values that occur in stored records and in backend responses:
    [undefined], [null], booleans, numbers (only integers are ever
    transported here; no arithmetic is done on them by the storage code),
    strings and nested objects. *)
Inductive JsValue : Type :=
| JUndefined
| JNull
| JBool (b : bool)
| JNum (n : Z)
| JStr (s : string)
| JObj (fields : list (string * JsValue)).

(** A plain object at the top level is a finite map from property names to
    values. *)
Abbreviation JsObject := (gmap string JsValue).

(** [{ ..., k: v }]: a property written in an object literal overrides an
    earlier property of the same name. *)
Definition obj_set (k : string) (v : JsValue) (o : JsObject) : JsObject :=
  <[k := v]> o.

(** [{ ..., ...src }]: spreading [src] into a literal copies every own
    property of [src], overriding the properties written before it. *)
Definition obj_spread (src : JsObject) (o : JsObject) : JsObject :=
  src ∪ o.

(** [const { k: _, ...rest } = o]: the rest pattern keeps every property
    but [k]. *)
Definition obj_rest (k : string) (o : JsObject) : JsObject :=
  delete k o.

(** [Object.fromEntries(entries)]: the entries are assigned in order, so a
    later entry with the same key wins. *)
Definition Object_fromEntries (entries : list (string * JsValue)) : JsObject :=
  foldl (λ o kv, <[kv.1 := kv.2]> o) ∅ entries.

(** What the WASM client hands back for a struct: with serde_wasm_bindgen
    it is a JavaScript [Map], otherwise it already is a plain object. *)
Inductive WasmValue : Type :=
| WasmMap (entries : list (string * JsValue))
| WasmPlain (o : JsObject).

(** api.ts, [fromWasm]. *)
Definition fromWasm (value : WasmValue) : JsObject :=
  match value with
  | WasmMap entries => Object_fromEntries entries
  | WasmPlain o => o
  end.

(* ===================================================================== *)
(** ** Dexie tables with the inbound primary key ["id"] *)
(* ===================================================================== *)

(** IndexedDB keys that a [JsValue] can denote: numbers and strings. A
    number and a string are never the same key. *)
Inductive IdbKey : Type :=
| KNum (n : Z)
| KStr (s : string).

#[global] Instance IdbKey_eq_dec : EqDecision IdbKey.
Proof. solve_decision. Defined.

#[global] Instance IdbKey_countable : Countable IdbKey.
Proof.
  refine (inj_countable'
            (λ k, match k with KNum n => inl n | KStr s => inr s end)
            (λ x, match x with inl n => KNum n | inr s => KStr s end) _).
  by intros [].
Defined.

Definition key_of_value (v : JsValue) : option IdbKey :=
  match v with
  | JNum n => Some (KNum n)
  | JStr s => Some (KStr s)
  | _ => None
  end.

Definition value_of_key (k : IdbKey) : JsValue :=
  match k with
  | KNum n => JNum n
  | KStr s => JStr s
  end.

Module Table.

(** [stores({ swaps: "id" })]: the primary key of a record is read from
    its own [id] property. *)
Definition keyPath : string := "id".

Definition key_of_item (item : JsObject) : option IdbKey :=
  item !! keyPath ≫= key_of_value.

(** [table.put(item)]: adds the record or replaces the whole record stored
    under the same key; rejects when the record carries no valid key. *)
Definition put (item : JsObject) : M (gmap IdbKey JsObject) unit :=
  λ t, match key_of_item item with
       | Some k => (Ok tt, <[k := item]> t)
       | None => (Err DataError, t)
       end.

(** [table.get(key)]: [None] is JavaScript's [undefined]. *)
Definition get (k : IdbKey) : M (gmap IdbKey JsObject) (option JsObject) :=
  M_read (λ t, t !! k).

(** [table.delete(key)]: removing an absent key is not an error. *)
Definition delete (k : IdbKey) : M (gmap IdbKey JsObject) unit :=
  M_write (base.delete k).

(** [table.clear()]. *)
Definition clear : M (gmap IdbKey JsObject) unit :=
  M_write (λ _, ∅).

(** [table.toArray()]: every stored record, once. Dexie returns them in
    primary-key order; the model keeps the order of [map_to_list], and
    nothing below depends on it. *)
Definition toArray : M (gmap IdbKey JsObject) (list JsObject) :=
  M_read (λ t, (map_to_list t).*2).

(** [table.toCollection().primaryKeys()]. *)
Definition primaryKeys : M (gmap IdbKey JsObject) (list IdbKey) :=
  M_read (λ t, (map_to_list t).*1).

End Table.

(* ===================================================================== *)
(** ** storage/dexieSwapStorage.ts: [DexieSwapStorageProvider] *)
(* ===================================================================== *)

Module DexieSwapStorageProvider.

(** The [swaps] table of [LendaswapDatabase]; a [SwapRecord] is the stored
    data together with its [id]. *)
Abbreviation Db := (gmap IdbKey JsObject).

(** [get(swapId)]: the record without its [id] property, or [null]
    ([None]) when there is none. *)
Definition get (swapId : string) : M Db (option JsObject) :=
  (let* record := Table.get (KStr swapId) in
   match record with
   | None => M_ret None
   | Some record => M_ret (Some (obj_rest "id" record))
   end)%M.

(** [store(swapId, data)]: [put({ id: swapId, ...data })]. The spread comes
    after [id], so an [id] property of [data] itself takes precedence. *)
Definition store (swapId : string) (data : JsObject) : M Db unit :=
  Table.put (obj_spread data (obj_set "id" (JStr swapId) ∅)).

(** [delete(swapId)]. *)
Definition delete (swapId : string) : M Db unit :=
  Table.delete (KStr swapId).

(** [clear()]. *)
Definition clear : M Db unit := Table.clear.

(** [getAll()]: [this.db.swaps.toArray()], the records as they are stored,
    [id] included (return type [SwapRecord[]]). *)
Definition getAll : M Db (Datatypes.list JsObject) := Table.toArray.

(** [list()]: the primary keys. *)
Definition list : M Db (Datatypes.list IdbKey) := Table.primaryKeys.

End DexieSwapStorageProvider.

(** The operations a caller can issue against the swap store, and the
    store states they lead to. A rejected [store] leaves the table as it
    was. *)
Inductive SwapStoreOp : Type :=
| OpStore (swapId : string) (data : JsObject)
| OpDelete (swapId : string)
| OpClear.

Definition swap_store_step (op : SwapStoreOp) (t : gmap IdbKey JsObject)
  : gmap IdbKey JsObject :=
  match op with
  | OpStore swapId data => (DexieSwapStorageProvider.store swapId data t).2
  | OpDelete swapId => (DexieSwapStorageProvider.delete swapId t).2
  | OpClear => (DexieSwapStorageProvider.clear t).2
  end.

Definition swap_store_run (ops : list SwapStoreOp) : gmap IdbKey JsObject :=
  foldl (λ t op, swap_store_step op t) ∅ ops.

(* ===================================================================== *)
(** ** storage/dexieWalletStorage.ts: [DexieWalletStorageProvider] *)
(* ===================================================================== *)

(** [WalletRecord]: the [id] of the single record is the fixed key it is
    stored under. *)
Module WalletRecord.
Record t : Type := {
  mnemonic : option string;
  keyIndex : Z;
}.
End WalletRecord.

Module DexieWalletStorageProvider.

Abbreviation Db := (gmap string WalletRecord.t).

Definition WALLET_ID : string := "wallet".

(** [record?.mnemonic ?? null]. *)
Definition getMnemonic : M Db (option string) :=
  M_read (λ t, t !! WALLET_ID ≫= WalletRecord.mnemonic).

(** [record?.keyIndex ?? 0]. *)
Definition getKeyIndex : M Db Z :=
  M_read (λ t, default 0%Z (WalletRecord.keyIndex <$> t !! WALLET_ID)).

(** [setMnemonic(mnemonic)]: reads the existing record, then puts a whole
    new record carrying the old key index (or 0). *)
Definition setMnemonic (m : string) : M Db unit :=
  (let* existing := M_read (λ t, t !! WALLET_ID) in
   M_write (insert WALLET_ID
              {| WalletRecord.mnemonic := Some m;
                 WalletRecord.keyIndex :=
                   default 0%Z (WalletRecord.keyIndex <$> existing) |}))%M.

(** [setKeyIndex(index)]: reads the existing record, then puts a whole new
    record carrying the old mnemonic (or [null]). *)
Definition setKeyIndex (index : Z) : M Db unit :=
  (let* existing := M_read (λ t, t !! WALLET_ID) in
   M_write (insert WALLET_ID
              {| WalletRecord.mnemonic := existing ≫= WalletRecord.mnemonic;
                 WalletRecord.keyIndex := index |}))%M.

(** [clear()]. *)
Definition clear : M Db unit := M_write (λ _, ∅).

End DexieWalletStorageProvider.

(* ===================================================================== *)
(** ** api.ts: the vocabulary of the REST API *)
(* ===================================================================== *)

(** [TokenIdString]. *)
Inductive TokenIdString : Type :=
| btc_lightning
| btc_arkade
| usdc_pol
| usdt0_pol
| usdc_eth
| usdt_eth.

(** The network argument of the swap-creation calls:
    ["ethereum" | "polygon"]. *)
Inductive EvmNetwork : Type :=
| ethereum
| polygon.

(** [SwapStatus], in the order of the declaration. *)
Inductive SwapStatus : Type :=
| pending
| clientfunded
| clientrefunded
| serverfunded
| clientredeeming
| clientredeemed
| serverredeemed
| clientfundedserverrefunded
| clientrefundedserverfunded
| clientrefundedserverrefunded
| expired
| clientinvalidfunded
| clientfundedtoolate.

#[global] Instance SwapStatus_eq_dec : EqDecision SwapStatus.
Proof. solve_decision. Defined.

(** The string literal each member of the union is. *)
Definition SwapStatus_wire (s : SwapStatus) : string :=
  match s with
  | pending => "pending"
  | clientfunded => "clientfunded"
  | clientrefunded => "clientrefunded"
  | serverfunded => "serverfunded"
  | clientredeeming => "clientredeeming"
  | clientredeemed => "clientredeemed"
  | serverredeemed => "serverredeemed"
  | clientfundedserverrefunded => "clientfundedserverrefunded"
  | clientrefundedserverfunded => "clientrefundedserverfunded"
  | clientrefundedserverrefunded => "clientrefundedserverrefunded"
  | expired => "expired"
  | clientinvalidfunded => "clientinvalidfunded"
  | clientfundedtoolate => "clientfundedtoolate"
  end.

Definition SwapStatus_all : list SwapStatus :=
  [ pending; clientfunded; clientrefunded; serverfunded; clientredeeming;
    clientredeemed; serverredeemed; clientfundedserverrefunded;
    clientrefundedserverfunded; clientrefundedserverrefunded; expired;
    clientinvalidfunded; clientfundedtoolate ].

(** The wire values as the specification enumerates them (its section on
    the lifecycle tracker, in its order): the plain states, the states it
    calls composite, and the anomaly states. *)
Definition spec_plain_states : list string :=
  [ "pending"; "clientfunded"; "serverfunded"; "clientredeeming";
    "clientredeemed"; "serverredeemed"; "clientrefunded"; "expired" ].

Definition spec_composite_states : list string :=
  [ "clientfundedserverrefunded"; "clientrefundedserverfunded";
    "clientrefundedserverrefunded" ].

Definition spec_anomaly_states : list string :=
  [ "clientinvalidfunded"; "clientfundedtoolate" ].

Definition spec_wire_values : list string :=
  spec_plain_states ++ spec_composite_states ++ spec_anomaly_states.

(** A lowercase string without separators: every character is one of
    [a] .. [z]. *)
Definition is_lower_letter (c : Ascii.ascii) : bool :=
  let n := Ascii.nat_of_ascii c in (97 <=? n)%nat && (n <=? 122)%nat.

Fixpoint lowercase_no_separator (w : string) : bool :=
  match w with
  | EmptyString => true
  | String c w' => is_lower_letter c && lowercase_no_separator w'
  end.

(** Request records. *)
Module SwapRequest.
Record t : Type := {
  target_address : string;
  target_amount : Z;
  target_token : TokenIdString;
  referral_code : option string;
}.
End SwapRequest.

Module EvmToArkadeSwapRequest.
Record t : Type := {
  target_address : string;
  source_amount : Z;
  source_token : TokenIdString;
  user_address : string;
  referral_code : option string;
}.
End EvmToArkadeSwapRequest.

Module EvmToLightningSwapRequest.
Record t : Type := {
  bolt11_invoice : string;
  source_token : TokenIdString;
  user_address : string;
  referral_code : option string;
}.
End EvmToLightningSwapRequest.

(** The three swap-creation entry points of the WASM client, with the
    argument order of the calls in api.ts. What they compute is outside
    this repository's TypeScript; a call either rejects or resolves to a
    value. *)
Record WasmClient : Type := {
  wasm_createArkadeToEvmSwap :
    string → Z → TokenIdString → EvmNetwork → option string → Result WasmValue;
  wasm_createEvmToArkadeSwap :
    string → string → Z → TokenIdString → EvmNetwork → option string →
    Result WasmValue;
  wasm_createEvmToLightningSwap :
    string → string → TokenIdString → EvmNetwork → option string →
    Result WasmValue;
}.

Module Client.

(** [return { ...obj, direction: d }]. *)
Definition tag_direction (d : string) (obj : JsObject) : JsObject :=
  obj_set "direction" (JStr d) (obj_spread obj ∅).

Definition createArkadeToEvmSwap (client : WasmClient)
    (request : SwapRequest.t) (targetNetwork : EvmNetwork) : Result JsObject :=
  match wasm_createArkadeToEvmSwap client
          (SwapRequest.target_address request)
          (SwapRequest.target_amount request)
          (SwapRequest.target_token request)
          targetNetwork
          (SwapRequest.referral_code request) with
  | Err e => Err e
  | Ok response => Ok (tag_direction "btc_to_evm" (fromWasm response))
  end.

Definition createEvmToArkadeSwap (client : WasmClient)
    (request : EvmToArkadeSwapRequest.t) (sourceNetwork : EvmNetwork)
  : Result JsObject :=
  match wasm_createEvmToArkadeSwap client
          (EvmToArkadeSwapRequest.target_address request)
          (EvmToArkadeSwapRequest.user_address request)
          (EvmToArkadeSwapRequest.source_amount request)
          (EvmToArkadeSwapRequest.source_token request)
          sourceNetwork
          (EvmToArkadeSwapRequest.referral_code request) with
  | Err e => Err e
  | Ok response => Ok (tag_direction "evm_to_btc" (fromWasm response))
  end.

Definition createEvmToLightningSwap (client : WasmClient)
    (request : EvmToLightningSwapRequest.t) (sourceNetwork : EvmNetwork)
  : Result JsObject :=
  match wasm_createEvmToLightningSwap client
          (EvmToLightningSwapRequest.bolt11_invoice request)
          (EvmToLightningSwapRequest.user_address request)
          (EvmToLightningSwapRequest.source_token request)
          sourceNetwork
          (EvmToLightningSwapRequest.referral_code request) with
  | Err e => Err e
  | Ok response => Ok (tag_direction "evm_to_btc" (fromWasm response))
  end.

End Client.

(** [RecoveredSwap] is a swap response together with the [index] it was
    derived at; [RecoverSwapsResponse] is the list of them and the
    [highest_index]. *)
Module RecoveredSwap.
Record t : Type := {
  id : string;
  index : Z;
  response : JsValue;
}.
End RecoveredSwap.

Module RecoverSwapsResponse.
Record t : Type := {
  swaps : list RecoveredSwap.t;
  highest_index : Z;
}.
End RecoverSwapsResponse.

(** types.ts, [SwapParams]: the secret bundle of one swap. *)
Module SwapParams.
Record t : Type := {
  ownSk : string;
  ownPk : string;
  preimage : string;
  preimageHash : string;
  userId : string;
  keyIndex : Z;
}.

(** The same bundle under the property names of api.ts's [SwapParams],
    as it sits in a stored record. *)
Definition to_js (p : t) : JsValue :=
  JObj [ ("secret_key", JStr (ownSk p));
         ("public_key", JStr (ownPk p));
         ("preimage", JStr (preimage p));
         ("preimage_hash", JStr (preimageHash p));
         ("user_id", JStr (userId p));
         ("key_index", JNum (keyIndex p)) ].
End SwapParams.

(** [ExtendedSwapStorageData]: [{ response, swap_params }]. *)
Definition ExtendedSwapStorageData (response : JsValue) (swap_params : JsValue)
  : JsObject :=
  obj_set "swap_params" swap_params (obj_set "response" response ∅).

(* ===================================================================== *)
(** ** Lifecycle tracker *)
(* ===================================================================== *)

(** Modelled from the spec: the lifecycle tracker (status parsing and the
    two permission predicates) is not part of the TypeScript sources; only
    the [SwapStatus] type is. The definitions follow the specification's
    section on the lifecycle tracker. *)
Definition SwapStatus_of_wire (w : string) : Result SwapStatus :=
  match list_find (λ s, SwapStatus_wire s = w) SwapStatus_all with
  | Some (_, s) => Ok s
  | None => Err (UnknownSwapStatus w)
  end.

(** Modelled from the spec: [canClaim] is true only for [serverfunded]. *)
Definition canClaim (state : SwapStatus) : bool :=
  match state with
  | serverfunded => true
  | _ => false
  end.

(** Modelled from the spec: [canRefund] is true only when the client's leg
    is funded and [now] has reached the refund locktime. *)
Definition canRefund (state : SwapStatus) (now refundLocktime : Z) : bool :=
  match state with
  | clientfunded | clientfundedserverrefunded | clientfundedtoolate =>
      bool_decide (refundLocktime ≤ now)%Z
  | _ => false
  end.

(** Modelled from the spec: the predicates on wire strings fail closed. *)
Definition canClaim_wire (w : string) : Result bool :=
  match SwapStatus_of_wire w with
  | Ok s => Ok (canClaim s)
  | Err e => Err e
  end.

Definition canRefund_wire (w : string) (now refundLocktime : Z) : Result bool :=
  match SwapStatus_of_wire w with
  | Ok s => Ok (canRefund s now refundLocktime)
  | Err e => Err e
  end.

(* ===================================================================== *)
(** ** Derivation engine, index counter and recovery *)
(* ===================================================================== *)

(** The cryptographic collaborators, used as a library: mnemonic decoding,
    hierarchical key derivation at an index, scalar multiplication by the
    base point and hashing. Keys and hashes are hex strings, as in
    [SwapParams]. *)
Class Primitives : Type := {
  Seed : Type;
  mnemonicToSeed : string → option Seed;
  childSecretKey : Seed → Z → string;
  childPreimage : Seed → Z → string;
  scalarMultBase : string → string;
  Hash : string → string;
  identityKey : Seed → string;
}.

(** The client's persistent state: the wallet storage and the swap
    storage handed to [Client.create]. *)
Record ClientState : Type := {
  walletStorage : gmap string WalletRecord.t;
  swapStorage : gmap IdbKey JsObject;
}.

Definition on_wallet {A : Type} (m : M (gmap string WalletRecord.t) A)
  : M ClientState A :=
  λ st, let '(r, w) := m (walletStorage st) in
        (r, {| walletStorage := w; swapStorage := swapStorage st |}).

Definition on_swaps {A : Type} (m : M (gmap IdbKey JsObject) A)
  : M ClientState A :=
  λ st, let '(r, t) := m (swapStorage st) in
        (r, {| walletStorage := walletStorage st; swapStorage := t |}).

(** All or nothing: when the body fails, none of its effects is kept. *)
Definition atomically {S A : Type} (m : M S A) : M S A :=
  λ s, match m s with
       | (Ok a, s') => (Ok a, s')
       | (Err e, _) => (Err e, s)
       end.

Definition MAX_INDEX : Z := 2 ^ 31.

Section Core.
Context `{prim : Primitives}.

(** Modelled from the spec: [derive(seed, index)], the derivation engine
    of the WASM core. Total over indices in [0, 2^31); the public key is
    the base-point multiple of the secret key and the preimage hash is the
    hash of the preimage. *)
Definition derive (seed : Seed) (index : Z) : Result SwapParams.t :=
  if bool_decide (0 ≤ index < MAX_INDEX)%Z then
    Ok {| SwapParams.ownSk := childSecretKey seed index;
          SwapParams.ownPk := scalarMultBase (childSecretKey seed index);
          SwapParams.preimage := childPreimage seed index;
          SwapParams.preimageHash := Hash (childPreimage seed index);
          SwapParams.userId := identityKey seed;
          SwapParams.keyIndex := index |}
  else Err IndexOutOfRange.

(** Modelled from the spec: the seed is read from the wallet credential
    store; a missing or unparsable mnemonic is an [InvalidSeed]. *)
Definition loadSeed : M (gmap string WalletRecord.t) Seed :=
  (let* m := DexieWalletStorageProvider.getMnemonic in
   match m ≫= mnemonicToSeed with
   | Some seed => M_ret seed
   | None => M_lift (Err InvalidSeed)
   end)%M.

(** Modelled from the spec: [reserveNextIndex] reads the current value,
    persists [current + 1], then returns [current]. *)
Definition reserveNextIndex : M (gmap string WalletRecord.t) Z :=
  (let* current := DexieWalletStorageProvider.getKeyIndex in
   let* _ := DexieWalletStorageProvider.setKeyIndex (current + 1) in
   M_ret current)%M.

(** Modelled from the spec: [setFloor(n)] advances the counter to
    [max(current, n)]. *)
Definition setFloor (n : Z) : M (gmap string WalletRecord.t) unit :=
  (let* current := DexieWalletStorageProvider.getKeyIndex in
   DexieWalletStorageProvider.setKeyIndex (Z.max current n))%M.

(** Modelled from the spec: [deriveSwapParamsAtIndex(i)] derives at a given
    index and touches no counter. *)
Definition deriveSwapParamsAtIndex (i : Z)
  : M (gmap string WalletRecord.t) SwapParams.t :=
  (let* seed := loadSeed in
   M_lift (derive seed i))%M.

(** Modelled from the spec: [deriveSwapParams()] pulls the next index from
    the counter (incrementing and persisting it first) and derives there.
    A bad seed or an exhausted index range is raised before any
    mutation. *)
Definition deriveSwapParams : M (gmap string WalletRecord.t) SwapParams.t :=
  (let* seed := loadSeed in
   let* current := DexieWalletStorageProvider.getKeyIndex in
   if bool_decide (0 ≤ current < MAX_INDEX)%Z then
     let* index := reserveNextIndex in
     M_lift (derive seed index)
   else M_lift (Err IndexOutOfRange))%M.

(** Modelled from the spec: recovery re-derives the bundle of every
    returned swap at its recorded index and stores the full record,
    overwriting a local copy. *)
Fixpoint writeRecovered (seed : Seed) (swaps : list RecoveredSwap.t)
  : M ClientState (list JsObject) :=
  match swaps with
  | [] => M_ret []
  | swap :: rest =>
      (let* params := M_lift (derive seed (RecoveredSwap.index swap)) in
       let record :=
         ExtendedSwapStorageData (RecoveredSwap.response swap)
                                 (SwapParams.to_js params) in
       let* _ := on_swaps
                   (DexieSwapStorageProvider.store (RecoveredSwap.id swap) record) in
       let* records := writeRecovered seed rest in
       M_ret (record :: records))%M
  end.

(** Modelled from the spec: [recoverSwaps()], the recovery coordinator. The
    backend is the history-by-identity lookup; after all records are
    written the counter is raised by [setFloor(highest_index + 1)]; a
    failure anywhere commits nothing. *)
Definition recoverSwaps (backend : string → Result RecoverSwapsResponse.t)
  : M ClientState (list JsObject) :=
  atomically
    (let* seed := on_wallet loadSeed in
     let* resp := M_lift (backend (identityKey seed)) in
     let* records := writeRecovered seed (RecoverSwapsResponse.swaps resp) in
     let* _ := on_wallet
                 (setFloor (RecoverSwapsResponse.highest_index resp + 1)) in
     M_ret records)%M.

(** What a wallet process does to the client state between two looks at
    it: derive the parameters of a new swap, re-derive at a known index,
    recover from a backend response, or stop and start again on the
    persisted storage. *)
Inductive WalletOp : Type :=
| OpDeriveSwapParams
| OpDeriveSwapParamsAtIndex (i : Z)
| OpRecoverSwaps (backend : string → Result RecoverSwapsResponse.t)
| OpRestartProcess.

(** One operation: the key index it hands out as that of a new swap, if
    any, and the state it leaves. A restart keeps exactly the persisted
    state. *)
Definition wallet_step (op : WalletOp) (st : ClientState)
  : option Z * ClientState :=
  match op with
  | OpDeriveSwapParams =>
      match on_wallet deriveSwapParams st with
      | (Ok params, st') => (Some (SwapParams.keyIndex params), st')
      | (Err _, st') => (None, st')
      end
  | OpDeriveSwapParamsAtIndex i =>
      (None, (on_wallet (deriveSwapParamsAtIndex i) st).2)
  | OpRecoverSwaps backend => (None, (recoverSwaps backend st).2)
  | OpRestartProcess =>
      (None, {| walletStorage := walletStorage st;
                swapStorage := swapStorage st |})
  end.

(** The indices issued by a sequence of operations, oldest first. *)
Fixpoint wallet_run (ops : list WalletOp) (st : ClientState)
  : list Z * ClientState :=
  match ops with
  | [] => ([], st)
  | op :: ops' =>
      let '(issued, st') := wallet_step op st in
      let '(more, st'') := wallet_run ops' st' in
      (from_option (λ i, [i]) [] issued ++ more, st'')
  end.

End Core.

(** A stand-in for the cryptographic library, for replaying the wallet
    tests: the mnemonic itself is the seed (an empty one does not parse)
    and every derived value spells out how it was derived. It has the
    shape of the real primitives and none of their secrecy. *)
Definition test_primitives : Primitives := {|
  Seed := string;
  mnemonicToSeed := λ m, if decide (m = "") then None else Some m;
  childSecretKey := λ seed i, seed +:+ "/secret/" +:+ pretty i;
  childPreimage := λ seed i, seed +:+ "/preimage/" +:+ pretty i;
  scalarMultBase := λ sk, "G*" +:+ sk;
  Hash := λ x, "H(" +:+ x +:+ ")";
  identityKey := λ seed, seed +:+ "/identity";
|}.

(** The mnemonic of wallet.test.ts. *)
Definition testMnemonic : string :=
  "abandon abandon abandon abandon abandon abandon abandon abandon abandon abandon abandon about".

(** The invariant of the swap table: every record sits under the key its
    own [id] property denotes. *)
Definition keyed (t : gmap IdbKey JsObject) : Prop :=
  ∀ k rec, t !! k = Some rec → rec !! "id" = Some (value_of_key k).

(** Example data: a swap as the client stores it, and the same swap as a
    [SwapRecord], the shape [getAll] returns (it extends
    [ExtendedSwapStorageData] by an [id]). *)
Definition example_data : JsObject :=
  ExtendedSwapStorageData
    (JObj [ ("id", JStr "swap-b"); ("status", JStr "pending") ])
    (JObj [ ("key_index", JNum 0) ]).

Definition example_update : JsObject :=
  ExtendedSwapStorageData
    (JObj [ ("id", JStr "swap-b"); ("status", JStr "serverfunded") ])
    (JObj [ ("key_index", JNum 0) ]).

Definition example_SwapRecord : JsObject :=
  obj_set "id" (JStr "swap-b") example_data.

(** The persisted index counter, as [getKeyIndex] reads it. *)
Definition counter (st : ClientState) : Z :=
  default 0%Z (WalletRecord.keyIndex <$>
               walletStorage st !! DexieWalletStorageProvider.WALLET_ID).

(** A client on empty storage into which a mnemonic has been imported. *)
Definition fresh_client (m : string) : ClientState :=
  {| walletStorage := M_exec (DexieWalletStorageProvider.setMnemonic m) ∅;
     swapStorage := ∅ |}.

(** The recovery example of the specification: the local counter is 3 and
    the backend reports one swap, derived at index 7, as the highest. *)
Definition example_recovery_state : ClientState :=
  {| walletStorage :=
       M_exec (DexieWalletStorageProvider.setKeyIndex 3)
         (M_exec (DexieWalletStorageProvider.setMnemonic testMnemonic) ∅);
     swapStorage := ∅ |}.

Definition example_recovery_backend (identity : string)
  : Result RecoverSwapsResponse.t :=
  Ok {| RecoverSwapsResponse.swaps :=
          [ {| RecoveredSwap.id := "swap-b";
               RecoveredSwap.index := 7;
               RecoveredSwap.response :=
                 JObj [ ("id", JStr "swap-b"); ("status", JStr "serverfunded") ] |} ];
        RecoverSwapsResponse.highest_index := 7 |}.

(** The field [k] of the value the WASM client hands over, read off the
    value itself: the property [k] of a plain object; of a [Map], the
    value of its entry with key [k] (the keys of a JavaScript [Map] are
    distinct; should a list of entries repeat a key, the last entry
    counts, as in the [Map] built from it). *)
Definition handed_over (value : WasmValue) (k : string) : option JsValue :=
  match value with
  | WasmPlain o => o !! k
  | WasmMap entries => snd <$> last (filter (λ kv, kv.1 = k) entries)
  end.

(** What it means for a creation call to return the backend's response
    tagged with direction [d]: a rejection is passed on as it is; a
    response comes back as an object whose [direction] is [d] and whose
    other properties are exactly the fields handed over, with their
    values. *)
Definition tagged_with (d : string) (backend : Result WasmValue)
    (returned : Result JsObject) : Prop :=
  match backend with
  | Ok value =>
      ∃ resp : JsObject,
        returned = Ok resp
        ∧ resp !! "direction" = Some (JStr d)
        ∧ (∀ k : string, k ≠ "direction" → resp !! k = handed_over value k)
  | Err e => returned = Err e
  end.

(** A WASM client for examples: every creation call resolves to a [Map]
    that already carries a [direction] entry, as a backend that tried to
    supply the tag itself would. *)
Definition example_backend_response : WasmValue :=
  WasmMap [ ("id", JStr "swap-b"); ("direction", JStr "from_backend");
            ("status", JStr "pending") ].

Definition example_WasmClient : WasmClient := {|
  wasm_createArkadeToEvmSwap := λ _ _ _ _ _, Ok example_backend_response;
  wasm_createEvmToArkadeSwap := λ _ _ _ _ _ _, Ok example_backend_response;
  wasm_createEvmToLightningSwap := λ _ _ _ _ _, Ok example_backend_response;
|}.

(* ===================================================================== *)
(** ** Reference models of the two stores *)
(* ===================================================================== *)

(** The swap store as its callers think of it: a finite map from swap ids
    to the data stored under them. *)
Definition swap_map_step (op : SwapStoreOp) (m : gmap string JsObject)
  : gmap string JsObject :=
  match op with
  | OpStore swapId data => <[swapId := data]> m
  | OpDelete swapId => delete swapId m
  | OpClear => ∅
  end.

Definition swap_map_run (ops : list SwapStoreOp) : gmap string JsObject :=
  foldl (λ m op, swap_map_step op m) ∅ ops.

(** An operation whose data, if any, has no [id] property of its own. *)
Definition without_own_id (op : SwapStoreOp) : Prop :=
  match op with
  | OpStore _ data => data !! "id" = None
  | _ => True
  end.

(** How a table represents such a map: the record of swap [s] sits under
    the string key [s] and is the data with [id: s] added; there is
    nothing under a number key. *)
Definition represents (t : gmap IdbKey JsObject) (m : gmap string JsObject)
  : Prop :=
  (∀ s d, m !! s = Some d → d !! "id" = None)
  ∧ ∀ key, t !! key = match key with
                      | KStr s => obj_set "id" (JStr s) <$> m !! s
                      | KNum _ => None
                      end.

(** The operations on the wallet store, and the two registers it stands
    for: the mnemonic (if any) and the key index. *)
Inductive WalletStoreOp : Type :=
| OpSetMnemonic (m : string)
| OpSetKeyIndex (index : Z)
| OpClearWallet.

Definition wallet_store_step (op : WalletStoreOp)
    (t : gmap string WalletRecord.t) : gmap string WalletRecord.t :=
  match op with
  | OpSetMnemonic m => M_exec (DexieWalletStorageProvider.setMnemonic m) t
  | OpSetKeyIndex index => M_exec (DexieWalletStorageProvider.setKeyIndex index) t
  | OpClearWallet => M_exec DexieWalletStorageProvider.clear t
  end.

Definition wallet_store_run (ops : list WalletStoreOp)
  : gmap string WalletRecord.t :=
  foldl (λ t op, wallet_store_step op t) ∅ ops.

Definition wallet_registers_step (op : WalletStoreOp) (r : option string * Z)
  : option string * Z :=
  match op with
  | OpSetMnemonic m => (Some m, r.2)
  | OpSetKeyIndex index => (r.1, index)
  | OpClearWallet => (None, 0%Z)
  end.

Definition wallet_registers (ops : list WalletStoreOp) : option string * Z :=
  foldl (λ r op, wallet_registers_step op r) (None, 0%Z) ops.

(* ===================================================================== *)
(** ** api.ts: [initWasm] *)
(* ===================================================================== *)

(** Where the WASM binary is taken from: the file next to the module (in
    Node.js, with no path given), a path given by the caller, or the
    default fetch of the browser build. *)
Inductive WasmSource : Type :=
| NodeModuleFile
| CustomPath (wasmPath : string)
| BrowserFetch.

(** A [wasmPath?: string] used as a condition: [undefined] and the empty
    string are falsy. *)
Definition path_given (wasmPath : option string) : bool :=
  match wasmPath with
  | Some p => bool_decide (p ≠ "")
  | None => false
  end.

(** The branch the body of [initWasm] takes. *)
Definition wasm_source (isNode : bool) (wasmPath : option string) : WasmSource :=
  if isNode && negb (path_given wasmPath) then NodeModuleFile
  else match wasmPath with
       | Some p => if path_given wasmPath then CustomPath p else BrowserFetch
       | None => BrowserFetch
       end.

(** The module-level state: the cached promise (here, what it settles to)
    and, as a record of the effects, the loads that were started, oldest
    first. *)
Record WasmModule : Type := {
  initPromise : option (Result unit);
  loads : list WasmSource;
}.

Definition WasmModule_initial : WasmModule :=
  {| initPromise := None; loads := [] |}.

(** [initWasm(wasmPath)]. [isNode] is what the process detection finds and
    [outcome] is what reading and instantiating the binary from a source
    comes to; both belong to the environment. *)
Definition initWasm (isNode : bool) (outcome : WasmSource → Result unit)
    (wasmPath : option string) : WasmModule → Result unit * WasmModule :=
  λ st, match initPromise st with
        | Some settled => (settled, st)
        | None =>
            let source := wasm_source isNode wasmPath in
            (outcome source,
             {| initPromise := Some (outcome source);
                loads := loads st ++ [source] |})
        end.

(** A sequence of calls, each with its own argument: what each call's
    promise settles to, and the final module state. *)
Fixpoint initWasm_calls (isNode : bool) (outcome : WasmSource → Result unit)
    (args : list (option string)) (st : WasmModule)
  : list (Result unit) * WasmModule :=
  match args with
  | [] => ([], st)
  | wasmPath :: rest =>
      let '(r, st') := initWasm isNode outcome wasmPath st in
      let '(rs, st'') := initWasm_calls isNode outcome rest st' in
      (r :: rs, st'')
  end.

(** A wallet table that holds the two registers: the getters read them,
    and there is no record besides the wallet record. *)
Definition holds (t : gmap string WalletRecord.t) (r : option string * Z) : Prop :=
  M_eval DexieWalletStorageProvider.getMnemonic t = Ok r.1
  ∧ M_eval DexieWalletStorageProvider.getKeyIndex t = Ok r.2
  ∧ delete DexieWalletStorageProvider.WALLET_ID t = ∅.

(* ===================================================================== *)
(** ** price-feed.ts: [PriceFeedService] *)
(* ===================================================================== *)

Definition chars (s : string) : list Ascii.ascii := String.list_ascii_of_string s.

(** The constructor's URL: [baseUrl.replace(/^http/, "ws")], then
    [/ws/prices] appended unless the URL already ends with it. *)
Definition replace_leading_http (url : list Ascii.ascii) : list Ascii.ascii :=
  if decide (chars "http" `prefix_of` url) then chars "ws" ++ drop 4 url else url.

Definition ensure_prices_path (url : list Ascii.ascii) : list Ascii.ascii :=
  if decide (chars "/ws/prices" `suffix_of` url) then url
  else url ++ chars "/ws/prices".

Definition wsUrl_of (baseUrl : string) : string :=
  String.string_of_list_ascii
    (ensure_prices_path (replace_leading_http (chars baseUrl))).

(** [WebSocket.readyState]. *)
Inductive ReadyState : Type :=
| CONNECTING
| OPEN
| CLOSING
| CLOSED.

#[global] Instance ReadyState_eq_dec : EqDecision ReadyState.
Proof. solve_decision. Defined.

(** The fields of the service, and with them the web sockets it has
    created so far (a socket is known by its position in [sockets]; its
    handlers are the ones [connect] installs, on every socket alike).
    Callbacks are known by identity; [listeners] is the [Set] in insertion
    order; a pending timer carries the delay it was armed with. *)
Record PriceFeedService : Type := {
  wsUrl : string;
  ws : option nat;
  reconnectTimer : option Z;
  listeners : list nat;
  reconnectDelay : Z;
  isManualClose : bool;
  sockets : list ReadyState;
}.

Definition maxReconnectDelay : Z := 30000.

Module PriceFeed.

(** [new PriceFeedService(baseUrl)]. *)
Definition new (baseUrl : string) : PriceFeedService :=
  {| wsUrl := wsUrl_of baseUrl;
     ws := None;
     reconnectTimer := None;
     listeners := [];
     reconnectDelay := 1000;
     isManualClose := false;
     sockets := [] |}.

(** [this.ws?.readyState === WebSocket.OPEN], which is [isConnected()]. *)
Definition isConnected (st : PriceFeedService) : bool :=
  match ws st with
  | Some s => bool_decide (sockets st !! s = Some OPEN)
  | None => false
  end.

(** [listenerCount()]. *)
Definition listenerCount (st : PriceFeedService) : nat := length (listeners st).

(** [scheduleReconnect()]: arms the timer with the current delay unless
    one is pending. *)
Definition scheduleReconnect (st : PriceFeedService) : PriceFeedService :=
  match reconnectTimer st with
  | Some _ => st
  | None =>
      {| wsUrl := wsUrl st; ws := ws st;
         reconnectTimer := Some (reconnectDelay st);
         listeners := listeners st; reconnectDelay := reconnectDelay st;
         isManualClose := isManualClose st; sockets := sockets st |}
  end.

(** The condition both [onclose] and the [catch] of [connect] test. *)
Definition wants_reconnect (st : PriceFeedService) : bool :=
  bool_decide (0 < length (listeners st)) && negb (isManualClose st).

(** [connect()]. [constructible] tells whether [new WebSocket(this.wsUrl)]
    returns (a new socket, CONNECTING) or throws. *)
Definition connect (constructible : bool) (st : PriceFeedService)
  : PriceFeedService :=
  if isConnected st then st
  else
    let st1 :=
      {| wsUrl := wsUrl st; ws := ws st; reconnectTimer := reconnectTimer st;
         listeners := listeners st; reconnectDelay := reconnectDelay st;
         isManualClose := false; sockets := sockets st |} in
    if constructible then
      {| wsUrl := wsUrl st1; ws := Some (length (sockets st1));
         reconnectTimer := reconnectTimer st1;
         listeners := listeners st1; reconnectDelay := reconnectDelay st1;
         isManualClose := isManualClose st1;
         sockets := sockets st1 ++ [CONNECTING] |}
    else if wants_reconnect st1 then scheduleReconnect st1
    else st1.

(** [socket.close()]: a socket that is connecting or open starts
    closing. *)
Definition socket_close (r : ReadyState) : ReadyState :=
  match r with
  | CONNECTING | OPEN => CLOSING
  | CLOSING => CLOSING
  | CLOSED => CLOSED
  end.

(** [close()]. *)
Definition close (st : PriceFeedService) : PriceFeedService :=
  {| wsUrl := wsUrl st;
     ws := None;
     reconnectTimer := None;
     listeners := listeners st;
     reconnectDelay := reconnectDelay st;
     isManualClose := true;
     sockets := match ws st with
                | Some s => alter socket_close s (sockets st)
                | None => sockets st
                end |}.

(** [this.listeners.add(callback)] and [this.listeners.delete(callback)]. *)
Definition Set_add (cb : nat) (l : list nat) : list nat :=
  if decide (cb ∈ l) then l else l ++ [cb].

Definition Set_delete (cb : nat) (l : list nat) : list nat :=
  filter (λ x, x ≠ cb) l.

(** [subscribe(callback)]. *)
Definition subscribe (callback : nat) (constructible : bool)
    (st : PriceFeedService) : PriceFeedService :=
  let st1 :=
    {| wsUrl := wsUrl st; ws := ws st; reconnectTimer := reconnectTimer st;
       listeners := Set_add callback (listeners st);
       reconnectDelay := reconnectDelay st;
       isManualClose := isManualClose st; sockets := sockets st |} in
  if negb (isConnected st1) then connect constructible st1 else st1.

(** The function [subscribe] returns. *)
Definition unsubscribe (callback : nat) (st : PriceFeedService)
  : PriceFeedService :=
  let st1 :=
    {| wsUrl := wsUrl st; ws := ws st; reconnectTimer := reconnectTimer st;
       listeners := Set_delete callback (listeners st);
       reconnectDelay := reconnectDelay st;
       isManualClose := isManualClose st; sockets := sockets st |} in
  if bool_decide (length (listeners st1) = 0) then close st1 else st1.

(** [onopen] of socket [s]: the socket, if it was connecting, is open, and
    the delay is reset. *)
Definition onopen (s : nat) (st : PriceFeedService) : PriceFeedService :=
  if bool_decide (sockets st !! s = Some CONNECTING) then
    {| wsUrl := wsUrl st; ws := ws st; reconnectTimer := reconnectTimer st;
       listeners := listeners st; reconnectDelay := 1000;
       isManualClose := isManualClose st;
       sockets := <[s := OPEN]> (sockets st) |}
  else st.

(** [onclose] of socket [s]: the socket, if it exists and was not closed
    yet, is closed; the handler forgets the current socket and schedules
    a reconnect when there are listeners and the close was not manual. *)
Definition onclose (s : nat) (st : PriceFeedService) : PriceFeedService :=
  match sockets st !! s with
  | None | Some CLOSED => st
  | Some _ =>
      let st1 :=
        {| wsUrl := wsUrl st; ws := None; reconnectTimer := reconnectTimer st;
           listeners := listeners st; reconnectDelay := reconnectDelay st;
           isManualClose := isManualClose st;
           sockets := <[s := CLOSED]> (sockets st) |} in
      if wants_reconnect st1 then scheduleReconnect st1 else st1
  end.

(** The timer callback: forget the timer, [connect()], then double the
    delay up to the maximum. Without a pending timer nothing fires. *)
Definition timer_fires (constructible : bool) (st : PriceFeedService)
  : PriceFeedService :=
  match reconnectTimer st with
  | None => st
  | Some _ =>
      let st1 :=
        {| wsUrl := wsUrl st; ws := ws st; reconnectTimer := None;
           listeners := listeners st; reconnectDelay := reconnectDelay st;
           isManualClose := isManualClose st; sockets := sockets st |} in
      let st2 := connect constructible st1 in
      {| wsUrl := wsUrl st2; ws := ws st2; reconnectTimer := reconnectTimer st2;
         listeners := listeners st2;
         reconnectDelay := Z.min (reconnectDelay st2 * 2) maxReconnectDelay;
         isManualClose := isManualClose st2; sockets := sockets st2 |}
  end.

End PriceFeed.

(** What can happen to a service: calls from its user, events of its
    sockets (a message or an error changes no field) and the timer. *)
Inductive FeedEvent : Type :=
| EvSubscribe (callback : nat) (constructible : bool)
| EvUnsubscribe (callback : nat)
| EvClose
| EvSocketOpen (s : nat)
| EvSocketMessage (s : nat)
| EvSocketError (s : nat)
| EvSocketClose (s : nat)
| EvTimerFires (constructible : bool).

Definition feed_step (ev : FeedEvent) (st : PriceFeedService) : PriceFeedService :=
  match ev with
  | EvSubscribe callback constructible => PriceFeed.subscribe callback constructible st
  | EvUnsubscribe callback => PriceFeed.unsubscribe callback st
  | EvClose => PriceFeed.close st
  | EvSocketOpen s => PriceFeed.onopen s st
  | EvSocketMessage _ => st
  | EvSocketError _ => st
  | EvSocketClose s => PriceFeed.onclose s st
  | EvTimerFires constructible => PriceFeed.timer_fires constructible st
  end.

Definition feed_run (baseUrl : string) (evs : list FeedEvent) : PriceFeedService :=
  foldl (λ st ev, feed_step ev st) (PriceFeed.new baseUrl) evs.

(** The delays the backoff can reach. *)
Definition backoff_delays : list Z := [1000; 2000; 4000; 8000; 16000; 30000]%Z.

(** What every reachable state of a service satisfies. *)
Record feed_invariant (st : PriceFeedService) : Prop := {
  inv_delay : reconnectDelay st ∈ backoff_delays;
  inv_timer_delay : ∀ d, reconnectTimer st = Some d → d ∈ backoff_delays;
  inv_timer_listeners : is_Some (reconnectTimer st) → listeners st ≠ [];
  inv_timer_manual : is_Some (reconnectTimer st) → isManualClose st = false;
  inv_manual_ws : isManualClose st = true → ws st = None;
  inv_idle : listeners st = [] → ws st = None;
  inv_listeners_NoDup : NoDup (listeners st);
  inv_ws_socket : ∀ s, ws st = Some s → s < length (sockets st);
}.

(** A round of the backoff: the timer fires, the new socket (the [k]th
    created) closes without ever opening. *)
Definition failed_rounds (first : nat) (n : nat) : list FeedEvent :=
  mjoin ((λ k, [EvTimerFires true; EvSocketClose (first + k)]) <$> seq 0 n).

(* ===================================================================== *)
(** ** usd-price: USD prices from CoinGecko *)
(* ===================================================================== *)

(** The string literal each [TokenIdString] is. All of them are lowercase
    already, so [tokenId.toLowerCase()] is the literal itself. *)
Definition TokenIdString_wire (t : TokenIdString) : string :=
  match t with
  | btc_lightning => "btc_lightning"
  | btc_arkade => "btc_arkade"
  | usdc_pol => "usdc_pol"
  | usdt0_pol => "usdt0_pol"
  | usdc_eth => "usdc_eth"
  | usdt_eth => "usdt_eth"
  end.

(** [TOKEN_TO_COINGECKO], in the order of the literal. *)
Definition TOKEN_TO_COINGECKO : list (string * string) :=
  [ ("btc_lightning", "bitcoin");
    ("btc_arkade", "bitcoin");
    ("usdc_pol", "usd-coin");
    ("usdt0_pol", "tether");
    ("usdc_eth", "usd-coin");
    ("usdt_eth", "tether");
    ("xaut_eth", "tether-gold");
    ("pol_pol", "matic-network");
    ("eth_eth", "ethereum") ].

(** [getCoinGeckoId(tokenId)]: [TOKEN_TO_COINGECKO[tokenId.toLowerCase()] ?? null]. *)
Definition getCoinGeckoId (tokenId : TokenIdString) : option string :=
  (list_to_map TOKEN_TO_COINGECKO : gmap string string)
    !! TokenIdString_wire tokenId.

(** [getSupportedTokensForUsdPrice()]: [Object.keys(TOKEN_TO_COINGECKO)]. *)
Definition getSupportedTokensForUsdPrice : list string := TOKEN_TO_COINGECKO.*1.

(** A JavaScript [Map] with string keys, in insertion order: [set] keeps
    the place of a key that is there already. *)
Fixpoint Map_set (k v : string) (m : list (string * string))
  : list (string * string) :=
  match m with
  | [] => [(k, v)]
  | (k', v') :: m' =>
      if decide (k' = k) then (k, v) :: m' else (k', v') :: Map_set k v m'
  end.

Definition Map_get (k : string) (m : list (string * string)) : option string :=
  (λ kv, kv.2.2) <$> list_find (λ kv, kv.1 = k) m.

(** [[...new Set(values)]]: the distinct values, each at its first
    occurrence. *)
Definition Set_of (values : list string) : list string :=
  foldl (λ acc x, if decide (x ∈ acc) then acc else acc ++ [x]) [] values.

(** A string used as a condition: only the empty string is falsy. *)
Definition string_truthy (s : string) : bool := bool_decide (s ≠ "").

(** The first loop of [getUsdPrices]: the map from (lowercased) token ids
    to CoinGecko ids. *)
Definition tokenToCoinGecko_of (tokenIds : list TokenIdString)
  : list (string * string) :=
  foldl (λ m tokenId,
           match getCoinGeckoId tokenId with
           | Some coinGeckoId =>
               if string_truthy coinGeckoId
               then Map_set (TokenIdString_wire tokenId) coinGeckoId m
               else m
           | None => m
           end) [] tokenIds.

(** [GetUsdPriceOptions] and the query the request carries: the ids joined
    by commas, [vs_currencies=usd], and [include_24hr_change=true] when
    asked for. *)
Record GetUsdPriceOptions : Type := {
  include24hChange : option bool;
}.

Record PriceRequest : Type := {
  ids : list string;
  vs_currencies : string;
  include_24hr_change : bool;
}.

(** What [fetch] and [response.json()] come to. *)
Inductive FetchOutcome : Type :=
| FetchThrows
| ResponseNotOk (status : Z)
| JsonThrows
| JsonData (data : JsValue).

Module UsdPriceResult.
Record t : Type := {
  tokenId : TokenIdString;
  usdPrice : JsValue;
  change24h : option JsValue;
}.
End UsdPriceResult.

(** A value used as a condition. *)
Definition js_truthy (v : JsValue) : bool :=
  match v with
  | JUndefined | JNull => false
  | JBool b => b
  | JNum n => bool_decide (n ≠ 0%Z)
  | JStr s => bool_decide (s ≠ "")
  | JObj _ => true
  end.

(** [v[k]] for a property name that no prototype defines: throws on
    [null] and [undefined], is the property of an object, and is
    [undefined] on any other value. Of a parsed JSON object with a
    repeated key, the last one counts. *)
Definition js_index (v : JsValue) (k : string) : Result JsValue :=
  match v with
  | JUndefined | JNull => Err (BackendFailure "TypeError")
  | JObj fields => Ok (default JUndefined (Object_fromEntries fields !! k))
  | _ => Ok JUndefined
  end.

(** [{ tokenId, usdPrice: null }]. *)
Definition no_price (tokenId : TokenIdString) : UsdPriceResult.t :=
  {| UsdPriceResult.tokenId := tokenId;
     UsdPriceResult.usdPrice := JNull;
     UsdPriceResult.change24h := None |}.

(** The callback of the final [tokenIds.map]: it may throw, when the
    response body is [null]. *)
Definition price_of (m : list (string * string)) (include : bool)
    (data : JsValue) (tokenId : TokenIdString) : Result UsdPriceResult.t :=
  match Map_get (TokenIdString_wire tokenId) m with
  | None => Ok (no_price tokenId)
  | Some coinGeckoId =>
      if negb (string_truthy coinGeckoId) then Ok (no_price tokenId)
      else
        match js_index data coinGeckoId with
        | Err e => Err e
        | Ok priceData =>
            if negb (js_truthy priceData) then Ok (no_price tokenId)
            else
              match js_index priceData "usd",
                    js_index priceData "usd_24h_change" with
              | Ok usd, Ok change =>
                  Ok {| UsdPriceResult.tokenId := tokenId;
                        UsdPriceResult.usdPrice := usd;
                        UsdPriceResult.change24h :=
                          if include then
                            match change with
                            | JUndefined => None
                            | _ => Some change
                            end
                          else None |}
              | Err e, _ | _, Err e => Err e
              end
        end
  end.

(** [array.map(f)] for a callback that may throw: the first exception
    ends the loop. *)
Fixpoint map_throwing {A B : Type} (f : A → Result B) (l : list A)
  : Result (list B) :=
  match l with
  | [] => Ok []
  | x :: l' =>
      match f x with
      | Err e => Err e
      | Ok y => match map_throwing f l' with
                | Err e => Err e
                | Ok ys => Ok (y :: ys)
                end
      end
  end.

(** The request [getUsdPrices] sends, if it sends one. *)
Definition price_request (tokenIds : list TokenIdString)
    (options : option GetUsdPriceOptions) : option PriceRequest :=
  let uniqueCoinGeckoIds := Set_of (tokenToCoinGecko_of tokenIds).*2 in
  if bool_decide (length uniqueCoinGeckoIds = 0) then None
  else Some {| ids := uniqueCoinGeckoIds;
               vs_currencies := "usd";
               include_24hr_change :=
                 default false (options ≫= include24hChange) |}.

(** [getUsdPrices(tokenIds, options)], with [fetch] as the environment. *)
Definition getUsdPrices (fetch : PriceRequest → FetchOutcome)
    (tokenIds : list TokenIdString) (options : option GetUsdPriceOptions)
  : list UsdPriceResult.t :=
  match price_request tokenIds options with
  | None => no_price <$> tokenIds
  | Some request =>
      match fetch request with
      | FetchThrows | ResponseNotOk _ | JsonThrows => no_price <$> tokenIds
      | JsonData data =>
          match map_throwing
                  (price_of (tokenToCoinGecko_of tokenIds)
                     (include_24hr_change request) data) tokenIds with
          | Ok results => results
          | Err _ => no_price <$> tokenIds
          end
      end
  end.

(** [getUsdPrice(tokenId, options)]: [result[0]?.usdPrice ?? null]. *)
Definition getUsdPrice (fetch : PriceRequest → FetchOutcome)
    (tokenId : TokenIdString) (options : option GetUsdPriceOptions) : JsValue :=
  match getUsdPrices fetch [tokenId] options with
  | [] => JNull
  | result :: _ =>
      match UsdPriceResult.usdPrice result with
      | JUndefined | JNull => JNull
      | price => price
      end
  end.

(** Example response of the price endpoint: bitcoin with a 24h change,
    usd-coin without, tether missing. *)
Definition example_price_data : JsValue :=
  JObj [ ("bitcoin", JObj [ ("usd", JNum 97000); ("usd_24h_change", JNum 2) ]);
         ("usd-coin", JObj [ ("usd", JNum 1) ]) ].

Definition example_fetch (request : PriceRequest) : FetchOutcome :=
  JsonData example_price_data.

(* ===================================================================== *)
(** * Theorems *)
(* ===================================================================== *)

(** ** The swap status vocabulary *)

Lemma SwapStatus_all_complete (s : SwapStatus) : s ∈ SwapStatus_all.
Proof.
  unfold SwapStatus_all. rewrite !elem_of_cons.
  destruct s; tauto.
Qed.

Lemma SwapStatus_wire_inj : Inj (=) (=) SwapStatus_wire.
Proof. intros [] [] Heq; (reflexivity || discriminate Heq). Qed.

Lemma spec_wire_values_are_the_literals (w : string) :
  w ∈ spec_wire_values ↔ w ∈ SwapStatus_wire <$> SwapStatus_all.
Proof.
  unfold spec_wire_values, spec_plain_states, spec_composite_states,
    spec_anomaly_states, SwapStatus_all.
  cbn [fmap list_fmap SwapStatus_wire app].
  rewrite !elem_of_cons, !elem_of_nil. tauto.
Qed.

Lemma SwapStatus_of_wire_wire (s : SwapStatus) :
  SwapStatus_of_wire (SwapStatus_wire s) = Ok s.
Proof. by destruct s. Qed.

Lemma SwapStatus_of_wire_Ok (w : string) (s : SwapStatus) :
  SwapStatus_of_wire w = Ok s ↔ SwapStatus_wire s = w.
Proof.
  split; [| intros <-; apply SwapStatus_of_wire_wire].
  unfold SwapStatus_of_wire.
  destruct (list_find _ _) as [[i s']|] eqn:Hfind; [| discriminate].
  intros [= ->]. by apply list_find_Some in Hfind as (_ & ? & _).
Qed.

(** C6: the wire values a [SwapStatus] can take are exactly the thirteen
    strings the specification enumerates, no two of them equal, each made
    of lowercase letters only; distinct members of the type are distinct
    strings, and a string outside the list is refused by the parser. Of
    the thirteen, the specification lists three (not four) as composite. *)
Theorem SwapStatus_wire_values_exact :
  (∀ w : string, (∃ s : SwapStatus, SwapStatus_wire s = w) ↔ w ∈ spec_wire_values)
  ∧ NoDup spec_wire_values
  ∧ length spec_wire_values = 13
  ∧ Inj (=) (=) SwapStatus_wire
  ∧ Forall (λ w, lowercase_no_separator w = true) spec_wire_values
  ∧ (∀ w : string, w ∉ spec_wire_values ↔ SwapStatus_of_wire w = Err (UnknownSwapStatus w))
  ∧ length spec_composite_states = 3.
Proof.
  assert (Hiff : ∀ w : string,
             (∃ s : SwapStatus, SwapStatus_wire s = w) ↔ w ∈ spec_wire_values).
  { intros w. rewrite spec_wire_values_are_the_literals, list_elem_of_fmap.
    split.
    - intros [s <-]. exists s. split; [done | apply SwapStatus_all_complete].
    - intros (s & -> & _). by exists s. }
  split_and!; try done.
  - apply (bool_decide_unpack (NoDup spec_wire_values)). by vm_compute.
  - apply SwapStatus_wire_inj.
  - apply Forall_forall. intros w Hw.
    apply Hiff in Hw as [s <-]. by destruct s.
  - intros w. rewrite <- Hiff. split.
    + intros Hnone. unfold SwapStatus_of_wire.
      destruct (list_find _ _) as [[i s]|] eqn:Hfind; [| done].
      apply list_find_Some in Hfind as (_ & Hs & _). destruct Hnone. by exists s.
    + intros Herr [s Hs]. apply SwapStatus_of_wire_Ok in Hs. congruence.
Qed.

(** ** The permission predicates *)

(** C1: [canClaim] holds exactly at [serverfunded], and [canRefund] holds
    exactly when the state is one of [clientfunded],
    [clientfundedserverrefunded], [clientfundedtoolate] and the refund
    locktime has been reached; on wire strings, the examples of the
    specification come out as it says. *)
Theorem permission_predicates_truth_tables :
  (∀ s : SwapStatus, canClaim s = true ↔ s = serverfunded)
  ∧ (∀ (s : SwapStatus) (now refundLocktime : Z),
       canRefund s now refundLocktime = true ↔
       (s = clientfunded ∨ s = clientfundedserverrefunded ∨ s = clientfundedtoolate)
       ∧ (refundLocktime ≤ now)%Z)
  ∧ canClaim_wire "serverfunded" = Ok true
  ∧ canClaim_wire "pending" = Ok false
  ∧ (∀ t : Z, canRefund_wire "clientfunded" t (t - 1) = Ok true)
  ∧ (∀ t : Z, canRefund_wire "clientfunded" t (t + 1) = Ok false)
  ∧ Forall (λ w, canClaim_wire w = Ok false)
      (spec_composite_states ++ spec_anomaly_states)
  ∧ (∀ now refundLocktime : Z,
       Forall (λ w, canRefund_wire w now refundLocktime = Ok false)
         [ "clientrefundedserverfunded"; "clientrefundedserverrefunded";
           "clientinvalidfunded" ]).
Proof.
  split_and!.
  - intros []; cbn; split; (done || discriminate).
  - intros [] now refundLocktime; cbn; rewrite ?bool_decide_eq_true;
      naive_solver.
  - reflexivity.
  - reflexivity.
  - intros t. unfold canRefund_wire. cbn. f_equal. apply bool_decide_eq_true. lia.
  - intros t. unfold canRefund_wire. cbn. f_equal. apply bool_decide_eq_false. lia.
  - repeat constructor.
  - intros now refundLocktime. repeat constructor.
Qed.

(** ** The wallet storage provider *)

Section WalletStorage.
Import DexieWalletStorageProvider.
Implicit Types (t : gmap string WalletRecord.t) (index : Z) (m : string).

Lemma getKeyIndex_setKeyIndex t index :
  M_eval getKeyIndex (M_exec (setKeyIndex index) t) = Ok index.
Proof.
  unfold M_eval, M_exec, getKeyIndex, setKeyIndex, M_bind, M_read, M_write.
  cbn. by rewrite lookup_insert_eq.
Qed.

Lemma getMnemonic_setMnemonic t m :
  M_eval getMnemonic (M_exec (setMnemonic m) t) = Ok (Some m).
Proof.
  unfold M_eval, M_exec, getMnemonic, setMnemonic, M_bind, M_read, M_write.
  cbn. by rewrite lookup_insert_eq.
Qed.

Lemma getMnemonic_setKeyIndex t index :
  M_eval getMnemonic (M_exec (setKeyIndex index) t) = M_eval getMnemonic t.
Proof.
  unfold M_eval, M_exec, getMnemonic, setKeyIndex, M_bind, M_read, M_write.
  cbn. by rewrite lookup_insert_eq.
Qed.

Lemma getKeyIndex_setMnemonic t m :
  M_eval getKeyIndex (M_exec (setMnemonic m) t) = M_eval getKeyIndex t.
Proof.
  unfold M_eval, M_exec, getKeyIndex, setMnemonic, M_bind, M_read, M_write.
  cbn. by rewrite lookup_insert_eq.
Qed.

(** C10: [setKeyIndex] leaves the mnemonic that [getMnemonic] reads as it
    was ([null] when there was no record), [setMnemonic] leaves the key
    index that [getKeyIndex] reads as it was (0 when there was no record);
    both resolve, and neither touches any other record of the table. *)
Theorem wallet_storage_setters_frame :
  ∀ (t : gmap string WalletRecord.t) (index : Z) (m : string),
    M_eval (let* _ := setKeyIndex index in getMnemonic)%M t = M_eval getMnemonic t
    ∧ M_eval (let* _ := setMnemonic m in getKeyIndex)%M t = M_eval getKeyIndex t
    ∧ M_eval (let* _ := setKeyIndex index in getMnemonic)%M (delete WALLET_ID t)
      = Ok None
    ∧ M_eval (let* _ := setMnemonic m in getKeyIndex)%M (delete WALLET_ID t)
      = Ok 0%Z
    ∧ M_eval (setKeyIndex index) t = Ok tt
    ∧ M_eval (setMnemonic m) t = Ok tt
    ∧ delete WALLET_ID (M_exec (setKeyIndex index) t) = delete WALLET_ID t
    ∧ delete WALLET_ID (M_exec (setMnemonic m) t) = delete WALLET_ID t.
Proof.
  intros t index m.
  unfold M_eval, M_exec, getKeyIndex, getMnemonic, setKeyIndex, setMnemonic,
    M_bind, M_read, M_write.
  cbn. rewrite !lookup_insert_eq, !lookup_delete_eq, !delete_insert_eq. cbn.
  by split_and!.
Qed.

End WalletStorage.

(** ** The swap storage provider *)

Section SwapStorage.
Import DexieSwapStorageProvider.
Implicit Types (t : gmap IdbKey JsObject) (data item : JsObject) (swapId : string).

(** The object literal [{ id: swapId, ...data }]. *)
Lemma stored_item_id swapId data :
  obj_spread data (obj_set "id" (JStr swapId) ∅) !! "id"
  = Some (default (JStr swapId) (data !! "id")).
Proof.
  unfold obj_spread, obj_set. rewrite lookup_union, lookup_insert_eq.
  by destruct (data !! "id").
Qed.

Lemma stored_item_rest swapId data :
  obj_rest "id" (obj_spread data (obj_set "id" (JStr swapId) ∅)) = obj_rest "id" data.
Proof.
  unfold obj_rest, obj_spread, obj_set. apply map_eq. intros k.
  destruct (decide (k = "id")) as [-> | Hk].
  - by rewrite !lookup_delete_eq.
  - rewrite !lookup_delete_ne, lookup_union, lookup_insert_ne, lookup_empty by done.
    by destruct (data !! k).
Qed.

Lemma store_without_id swapId data t :
  data !! "id" = None →
  store swapId data t
  = (Ok tt, <[KStr swapId := obj_spread data (obj_set "id" (JStr swapId) ∅)]> t).
Proof.
  intros Hid. unfold store, Table.put, Table.key_of_item, Table.keyPath.
  by rewrite stored_item_id, Hid.
Qed.

Lemma get_lookup swapId t :
  M_eval (get swapId) t = Ok (obj_rest "id" <$> t !! KStr swapId).
Proof.
  unfold M_eval, get, Table.get, M_bind, M_read. cbn.
  by destruct (t !! KStr swapId).
Qed.

(** C8, as amended: for a record without an [id] property of its own (the
    shape [ExtendedSwapStorageData] declares), [store] resolves and [get]
    then returns exactly that record; a second [store] under the same id
    replaces the first record as a whole, leaving the table as if the
    first had never been stored. *)
Theorem swap_store_get_roundtrip :
  ∀ (t : gmap IdbKey JsObject) (swapId : string) (r1 r2 : JsObject),
    r1 !! "id" = None →
    r2 !! "id" = None →
    M_eval (store swapId r2) t = Ok tt
    ∧ M_eval (let* _ := store swapId r2 in get swapId)%M t = Ok (Some r2)
    ∧ M_eval (let* _ := store swapId r1 in
              let* _ := store swapId r2 in get swapId)%M t = Ok (Some r2)
    ∧ M_exec (let* _ := store swapId r1 in store swapId r2)%M t
      = M_exec (store swapId r2) t.
Proof.
  intros t swapId r1 r2 H1 H2.
  pose proof (get_lookup swapId) as Hget.
  unfold M_eval, M_exec, M_bind in *.
  rewrite !(store_without_id _ r2), (store_without_id _ r1) by done.
  cbv beta iota.
  rewrite (store_without_id _ r2) by done.
  cbv beta iota.
  rewrite !Hget, insert_insert_eq, !lookup_insert_eq.
  cbn [fmap option_fmap option_map].
  rewrite stored_item_rest. unfold obj_rest. by rewrite delete_id.
Qed.

Lemma swap_store_get_roundtrip_witness :
  M_eval (store "swap-b" example_update) ∅ = Ok tt
  ∧ M_eval (let* _ := store "swap-b" example_update in get "swap-b")%M ∅
    = Ok (Some example_update)
  ∧ M_eval (let* _ := store "swap-b" example_data in
            let* _ := store "swap-b" example_update in get "swap-b")%M ∅
    = Ok (Some example_update)
  ∧ M_exec (let* _ := store "swap-b" example_data in
            store "swap-b" example_update)%M ∅
    = M_exec (store "swap-b" example_update) ∅.
Proof.
  apply (swap_store_get_roundtrip ∅ "swap-b" example_data example_update);
    reflexivity.
Defined.

(** C8 as stated fails on a record that has an [id] property: stored
    under ["swap-a"], a [SwapRecord] whose own [id] is ["swap-b"] lands
    under ["swap-b"], and [get "swap-a"] finds nothing; stored under its
    own id, it comes back without the [id]. *)
Lemma swap_store_get_roundtrip_counterexample :
  M_eval (let* _ := store "swap-a" example_SwapRecord in get "swap-a")%M ∅
  = Ok None
  ∧ M_eval (let* _ := store "swap-b" example_SwapRecord in get "swap-b")%M ∅
    = Ok (Some example_data)
  ∧ example_data ≠ example_SwapRecord.
Proof.
  split_and!.
  - reflexivity.
  - reflexivity.
  - intros Heq. apply (f_equal (lookup "id")) in Heq. discriminate Heq.
Qed.

End SwapStorage.

(** ** What [getAll] returns *)

Section SwapStorageContents.
Implicit Types (t : gmap IdbKey JsObject) (data item e : JsObject) (swapId : string).

Lemma key_of_value_Some (v : JsValue) (k : IdbKey) :
  key_of_value v = Some k → v = value_of_key k.
Proof. destruct v; intros [= <-]; reflexivity. Qed.

Lemma value_of_key_inj : Inj (=) (=) value_of_key.
Proof. intros [] [] [=]; by subst. Qed.

Lemma keyed_empty : keyed ∅.
Proof. intros k rec. by rewrite lookup_empty. Qed.

Lemma keyed_put item t : keyed t → keyed (M_exec (Table.put item) t).
Proof.
  intros Ht. unfold M_exec, Table.put, Table.key_of_item, Table.keyPath.
  destruct (item !! "id") as [v|] eqn:Hid; cbn; [| done].
  destruct (key_of_value v) as [k|] eqn:Hk; cbn; [| done].
  intros k' rec. rewrite lookup_insert. case_decide as Hkk.
  - intros [= <-]. subst k'. rewrite Hid. f_equal. by apply key_of_value_Some.
  - apply Ht.
Qed.

Lemma keyed_delete k t : keyed t → keyed (base.delete k t).
Proof.
  intros Ht k' rec. rewrite lookup_delete. case_decide; [done | apply Ht].
Qed.

Lemma keyed_step op t : keyed t → keyed (swap_store_step op t).
Proof.
  intros Ht. destruct op as [swapId data | swapId |]; cbn.
  - by apply keyed_put.
  - by apply keyed_delete.
  - apply keyed_empty.
Qed.

Lemma keyed_foldl ops t :
  keyed t → keyed (foldl (λ t op, swap_store_step op t) t ops).
Proof.
  revert t. induction ops as [| op ops IH]; intros t Ht; cbn; [done |].
  by apply IH, keyed_step.
Qed.

Lemma swap_store_run_keyed ops : keyed (swap_store_run ops).
Proof. apply keyed_foldl, keyed_empty. Qed.

(** X20: in every store state reached by [store], [delete] and [clear],
    whatever the data stored, [getAll] returns one entry per key [list]
    returns, in the same order, and each entry carries its key as its
    [id]; [get] returns a record for a swap id exactly when [getAll] has
    an entry whose [id] is that string, and the record is that entry with
    the [id] property removed. No entry of [getAll] is itself a value
    [get] returns. *)
Theorem getAll_entries_carry_their_key :
  ∀ ops : list SwapStoreOp,
    ∃ (entries : list JsObject) (ids : list IdbKey),
      M_eval DexieSwapStorageProvider.getAll (swap_store_run ops) = Ok entries
      ∧ M_eval DexieSwapStorageProvider.list (swap_store_run ops) = Ok ids
      ∧ NoDup ids
      ∧ length entries = length ids
      ∧ (λ e : JsObject, e !! "id") <$> entries
        = (λ k, Some (value_of_key k)) <$> ids
      ∧ (∀ swapId data,
           M_eval (DexieSwapStorageProvider.get swapId) (swap_store_run ops) = Ok (Some data)
           ↔ ∃ e, e ∈ entries ∧ e !! "id" = Some (JStr swapId)
                  ∧ data = obj_rest "id" e)
      ∧ (∀ e swapId,
           e ∈ entries → M_eval (DexieSwapStorageProvider.get swapId) (swap_store_run ops) ≠ Ok (Some e)).
Proof.
  intros ops. pose proof (swap_store_run_keyed ops) as Hkeyed.
  set (t := swap_store_run ops) in *.
  exists (map_to_list t).*2, (map_to_list t).*1.
  assert (Hentry : ∀ e, e ∈ (map_to_list t).*2 ↔ ∃ k, t !! k = Some e).
  { intros e. rewrite list_elem_of_fmap. split.
    - intros ([k e'] & -> & Hin). exists k. by apply elem_of_map_to_list.
    - intros [k Hk]. exists (k, e). split; [done |]. by apply elem_of_map_to_list. }
  split_and!.
  - reflexivity.
  - reflexivity.
  - apply NoDup_fst_map_to_list.
  - by rewrite !length_fmap.
  - rewrite <- !list_fmap_compose. apply list_fmap_ext.
    intros i [k rec] Hi. cbn. apply Hkeyed.
    apply elem_of_map_to_list. by eapply list_elem_of_lookup_2.
  - intros swapId data. rewrite get_lookup. split.
    + destruct (t !! KStr swapId) as [rec|] eqn:Hrec; [| discriminate].
      intros [= <-]. exists rec. split_and!; [| by apply Hkeyed in Hrec | done].
      apply Hentry. by exists (KStr swapId).
    + intros (e & [k Hk]%Hentry & Hid & ->).
      pose proof (Hkeyed _ _ Hk) as Hid'. rewrite Hid in Hid'.
      injection Hid' as Hid'. destruct k as [n | s]; [discriminate |].
      injection Hid' as <-. by rewrite Hk.
  - intros e swapId [k Hk]%Hentry. rewrite get_lookup.
    destruct (t !! KStr swapId) as [rec|]; [| discriminate].
    intros [= Heq]. apply Hkeyed in Hk.
    rewrite <- Heq in Hk. unfold obj_rest in Hk.
    by rewrite lookup_delete_eq in Hk.
Qed.

(** C9 as stated fails as soon as one swap is stored: the entry [getAll]
    returns has the [id] property, the record [get] returns does not. *)
Lemma getAll_entry_is_not_get_result :
  M_eval DexieSwapStorageProvider.getAll (swap_store_run [OpStore "swap-b" example_data])
  = Ok [example_SwapRecord]
  ∧ M_eval (DexieSwapStorageProvider.get "swap-b") (swap_store_run [OpStore "swap-b" example_data])
    = Ok (Some example_data)
  ∧ example_SwapRecord !! "id" = Some (JStr "swap-b")
  ∧ example_data !! "id" = None
  ∧ example_SwapRecord ≠ example_data.
Proof.
  split_and!; try reflexivity.
  intros Heq. apply (f_equal (lookup "id")) in Heq. discriminate Heq.
Qed.

End SwapStorageContents.

(** ** The direction tag of created swaps *)

Section Direction.
Import Client.

Lemma tag_direction_lookup (d : string) (obj : JsObject) :
  tag_direction d obj !! "direction" = Some (JStr d).
Proof. unfold tag_direction, obj_set. apply lookup_insert_eq. Qed.

Lemma tag_direction_other (d k : string) (obj : JsObject) :
  k ≠ "direction" → tag_direction d obj !! k = obj !! k.
Proof.
  intros Hk. unfold tag_direction, obj_set, obj_spread.
  by rewrite lookup_insert_ne, (right_id_L ∅ (∪)).
Qed.

Lemma Object_fromEntries_last (entries : list (string * JsValue)) (k : string) :
  Object_fromEntries entries !! k
  = snd <$> last (filter (λ kv, kv.1 = k) entries).
Proof.
  induction entries as [| [k' v'] entries IH] using rev_ind; [done |].
  unfold Object_fromEntries in *. rewrite foldl_snoc, filter_app. cbn [fst snd].
  destruct (decide (k' = k)) as [-> | Hk].
  - rewrite lookup_insert_eq, filter_singleton_True by done.
    by rewrite last_snoc.
  - rewrite lookup_insert_ne, filter_singleton_False by done.
    by rewrite app_nil_r.
Qed.

Lemma fromWasm_handed_over (value : WasmValue) (k : string) :
  fromWasm value !! k = handed_over value k.
Proof. destruct value as [entries | o]; [apply Object_fromEntries_last | done]. Qed.

Lemma entry_handed_over (entries : list (string * JsValue)) (k : string) (v : JsValue) :
  NoDup entries.*1 →
  handed_over (WasmMap entries) k = Some v ↔ (k, v) ∈ entries.
Proof.
  intros Hnodup. cbn [handed_over]. split.
  - intros Hlast. apply fmap_Some in Hlast as ([k' v'] & Hlast & ->).
    apply last_Some_elem_of, list_elem_of_filter in Hlast as [Hk Hin].
    cbn in Hk. by subst k'.
  - intros Hin.
    destruct (last (filter (λ kv, kv.1 = k) entries)) as [[k' v'] |] eqn:Hlast.
    + pose proof Hlast as Hin'.
      apply last_Some_elem_of, list_elem_of_filter in Hin' as [Hk Hin'].
      cbn in Hk. subst k'. cbn. f_equal.
      pose proof (elem_of_list_to_map_1 (M := gmap string) _ _ _ Hnodup Hin) as Hv.
      pose proof (elem_of_list_to_map_1 (M := gmap string) _ _ _ Hnodup Hin') as Hv'.
      congruence.
    + apply last_None in Hlast.
      by apply (filter_nil_not_elem_of _ _ (k, v)) in Hlast.
Qed.

(** C7: whatever the request and whatever the WASM client answers, each
    of the three creation calls returns the answer with [direction] set
    by the SDK ([btc_to_evm] for Arkade to EVM, [evm_to_btc] for EVM to
    Arkade and EVM to Lightning), overriding a [direction] the answer may
    carry, and with every other field as it was handed over: a property
    of a plain object with its value, an entry of a [Map] with its value,
    and nothing else; a rejection is passed on. *)
Theorem create_swap_direction_is_set_by_client :
  ∀ (client : WasmClient) (network : EvmNetwork)
    (r1 : SwapRequest.t) (r2 : EvmToArkadeSwapRequest.t)
    (r3 : EvmToLightningSwapRequest.t),
    tagged_with "btc_to_evm"
      (wasm_createArkadeToEvmSwap client
         (SwapRequest.target_address r1) (SwapRequest.target_amount r1)
         (SwapRequest.target_token r1) network (SwapRequest.referral_code r1))
      (createArkadeToEvmSwap client r1 network)
    ∧ tagged_with "evm_to_btc"
        (wasm_createEvmToArkadeSwap client
           (EvmToArkadeSwapRequest.target_address r2)
           (EvmToArkadeSwapRequest.user_address r2)
           (EvmToArkadeSwapRequest.source_amount r2)
           (EvmToArkadeSwapRequest.source_token r2) network
           (EvmToArkadeSwapRequest.referral_code r2))
        (createEvmToArkadeSwap client r2 network)
    ∧ tagged_with "evm_to_btc"
        (wasm_createEvmToLightningSwap client
           (EvmToLightningSwapRequest.bolt11_invoice r3)
           (EvmToLightningSwapRequest.user_address r3)
           (EvmToLightningSwapRequest.source_token r3) network
           (EvmToLightningSwapRequest.referral_code r3))
        (createEvmToLightningSwap client r3 network)
    ∧ (∀ (o : JsObject) (k : string), handed_over (WasmPlain o) k = o !! k)
    ∧ (∀ (entries : list (string * JsValue)) (k : string) (v : JsValue),
         NoDup entries.*1 →
         handed_over (WasmMap entries) k = Some v ↔ (k, v) ∈ entries).
Proof.
  intros client network r1 r2 r3.
  unfold tagged_with, createArkadeToEvmSwap, createEvmToArkadeSwap,
    createEvmToLightningSwap.
  split; [| split; [| split; [| split]]];
    [ | | | reflexivity | intros entries k v; apply entry_handed_over ];
    (destruct (_ client _ _) as [value | e]; [| reflexivity];
     eexists; split_and!;
     [ reflexivity
     | apply tag_direction_lookup
     | intros k Hk; rewrite <- fromWasm_handed_over;
       by apply tag_direction_other ]).
Qed.

(** A [direction] supplied by the backend does not survive. *)
Example backend_direction_is_overridden :
  ∃ resp : JsObject,
    createArkadeToEvmSwap example_WasmClient
      {| SwapRequest.target_address := "0xYourPolygonAddress";
         SwapRequest.target_amount := 10;
         SwapRequest.target_token := usdc_pol;
         SwapRequest.referral_code := None |} polygon = Ok resp
    ∧ resp !! "direction" = Some (JStr "btc_to_evm")
    ∧ resp !! "status" = Some (JStr "pending")
    ∧ resp !! "id" = Some (JStr "swap-b")
    ∧ handed_over example_backend_response "direction" = Some (JStr "from_backend").
Proof. eexists. split_and!; reflexivity. Qed.

End Direction.

(** ** Derivation *)

Section Derivation.
Context `{prim : Primitives}.
Import DexieWalletStorageProvider.
Implicit Types (t : gmap string WalletRecord.t) (i : Z) (m : string).

Lemma derive_in_range (seed : Seed) i :
  (0 ≤ i < MAX_INDEX)%Z →
  derive seed i
  = Ok {| SwapParams.ownSk := childSecretKey seed i;
          SwapParams.ownPk := scalarMultBase (childSecretKey seed i);
          SwapParams.preimage := childPreimage seed i;
          SwapParams.preimageHash := Hash (childPreimage seed i);
          SwapParams.userId := identityKey seed;
          SwapParams.keyIndex := i |}.
Proof. intros Hi. unfold derive. by rewrite bool_decide_eq_true_2. Qed.

Lemma loadSeed_eq t :
  loadSeed t
  = (match (t !! WALLET_ID ≫= WalletRecord.mnemonic) ≫= mnemonicToSeed with
     | Some seed => Ok seed
     | None => Err InvalidSeed
     end, t).
Proof.
  unfold loadSeed, M_bind, getMnemonic, M_read, M_ret, M_lift.
  by destruct (_ ≫= mnemonicToSeed).
Qed.

Lemma deriveSwapParamsAtIndex_eq i t :
  deriveSwapParamsAtIndex i t
  = (match (t !! WALLET_ID ≫= WalletRecord.mnemonic) ≫= mnemonicToSeed with
     | Some seed => derive seed i
     | None => Err InvalidSeed
     end, t).
Proof.
  unfold deriveSwapParamsAtIndex, M_bind. rewrite loadSeed_eq.
  by destruct (_ ≫= mnemonicToSeed).
Qed.

(** Re-derivation reads nothing but the stored mnemonic. *)
Lemma deriveSwapParamsAtIndex_same_mnemonic i t1 t2 :
  M_eval getMnemonic t1 = M_eval getMnemonic t2 →
  M_eval (deriveSwapParamsAtIndex i) t1 = M_eval (deriveSwapParamsAtIndex i) t2.
Proof.
  unfold M_eval. rewrite !deriveSwapParamsAtIndex_eq. cbn.
  by intros [= ->].
Qed.

End Derivation.

(** ** The index counter *)

Section Counter.
Context `{prim : Primitives}.
Import DexieWalletStorageProvider.
Implicit Types (st : ClientState) (t : gmap string WalletRecord.t) (n i : Z).

(** The seed a wallet storage holds, if its mnemonic parses. *)
Local Abbreviation seed_of t :=
  ((t !! WALLET_ID ≫= WalletRecord.mnemonic) ≫= mnemonicToSeed).

Local Abbreviation counter_of t :=
  (default 0%Z (WalletRecord.keyIndex <$> t !! WALLET_ID)).

Lemma setKeyIndex_counter n t :
  counter_of (M_exec (setKeyIndex n) t) = n.
Proof.
  unfold M_exec, setKeyIndex, M_bind, M_read, M_write. cbn.
  by rewrite lookup_insert_eq.
Qed.

Lemma setKeyIndex_seed n t :
  seed_of (M_exec (setKeyIndex n) t) = seed_of t.
Proof.
  unfold M_exec, setKeyIndex, M_bind, M_read, M_write. cbn.
  by rewrite lookup_insert_eq.
Qed.

Lemma setFloor_eq n t :
  setFloor n t = (Ok tt, M_exec (setKeyIndex (Z.max (counter_of t) n)) t).
Proof. reflexivity. Qed.

Lemma deriveSwapParams_eq t :
  deriveSwapParams t
  = match seed_of t with
    | None => (Err InvalidSeed, t)
    | Some seed =>
        if bool_decide (0 ≤ counter_of t < MAX_INDEX)%Z
        then (derive seed (counter_of t),
              M_exec (setKeyIndex (counter_of t + 1)) t)
        else (Err IndexOutOfRange, t)
    end.
Proof.
  unfold deriveSwapParams, M_bind. rewrite loadSeed_eq.
  destruct (seed_of t) as [seed|]; [| done].
  unfold getKeyIndex at 1, M_read at 1. cbv beta iota.
  by case_bool_decide.
Qed.

(** A successful [deriveSwapParams] hands out the stored counter value and
    leaves the counter one higher; a failed one changes nothing. *)
Lemma deriveSwapParams_cases t :
  (∃ e, deriveSwapParams t = (Err e, t))
  ∨ (∃ p seed, deriveSwapParams t = (Ok p, M_exec (setKeyIndex (counter_of t + 1)) t)
               ∧ seed_of t = Some seed
               ∧ derive seed (counter_of t) = Ok p
               ∧ SwapParams.keyIndex p = counter_of t
               ∧ (0 ≤ counter_of t < MAX_INDEX)%Z).
Proof.
  rewrite deriveSwapParams_eq.
  destruct (seed_of t) as [seed|] eqn:Hseed; [| left; by eexists].
  case_bool_decide as Hc; [| left; by eexists].
  right. rewrite derive_in_range by done. eexists _, seed.
  split_and!; first [reflexivity | by apply derive_in_range | lia].
Qed.

Lemma writeRecovered_wallet (seed : Seed) (swaps : list RecoveredSwap.t) st :
  walletStorage (M_exec (writeRecovered seed swaps) st) = walletStorage st.
Proof.
  unfold M_exec. revert st.
  induction swaps as [| swap rest IH]; intros st; [done |].
  cbn [writeRecovered]. unfold M_bind at 1, M_lift at 1.
  destruct (derive seed _) as [params | e]; [| done].
  unfold M_bind at 1, on_swaps at 1.
  destruct (DexieSwapStorageProvider.store _ _ _) as [[[] | e] t']; [| done].
  unfold M_bind at 1.
  specialize (IH {| walletStorage := walletStorage st; swapStorage := t' |}).
  destruct (writeRecovered seed rest _) as [[records | e] st'']; exact IH.
Qed.

Lemma ExtendedSwapStorageData_no_id (response swap_params : JsValue) :
  ExtendedSwapStorageData response swap_params !! "id" = None.
Proof. reflexivity. Qed.

Lemma writeRecovered_resolves (seed : Seed) (swaps : list RecoveredSwap.t) st :
  Forall (λ swap, (0 ≤ RecoveredSwap.index swap < MAX_INDEX)%Z) swaps →
  ∃ records, M_eval (writeRecovered seed swaps) st = Ok records.
Proof.
  unfold M_eval. intros Hall. revert st.
  induction Hall as [| swap rest Hswap _ IH]; intros st; [by eexists |].
  cbn [writeRecovered]. unfold M_bind at 1, M_lift at 1.
  rewrite derive_in_range by done.
  unfold M_bind at 1, on_swaps at 1.
  rewrite store_without_id by apply ExtendedSwapStorageData_no_id.
  unfold M_bind at 1.
  match goal with |- context [writeRecovered seed rest ?s] =>
    destruct (IH s) as [records Hrec];
    destruct (writeRecovered seed rest s) as [r st'] end.
  cbn in Hrec. subst r. by eexists.
Qed.

Lemma recoverSwaps_eq (backend : string → Result RecoverSwapsResponse.t) st :
  recoverSwaps backend st
  = match seed_of (walletStorage st) with
    | None => (Err InvalidSeed, st)
    | Some seed =>
        match backend (identityKey seed) with
        | Err e => (Err e, st)
        | Ok resp =>
            match writeRecovered seed (RecoverSwapsResponse.swaps resp) st with
            | (Err e, _) => (Err e, st)
            | (Ok records, st1) =>
                (Ok records,
                 {| walletStorage :=
                      M_exec (setFloor (RecoverSwapsResponse.highest_index resp + 1))
                        (walletStorage st1);
                    swapStorage := swapStorage st1 |})
            end
        end
    end.
Proof.
  destruct st as [w sw].
  unfold recoverSwaps, atomically, M_bind, on_wallet, M_lift, M_ret.
  cbn [walletStorage swapStorage]. rewrite loadSeed_eq.
  destruct (seed_of w) as [seed|]; [| done].
  destruct (backend (identityKey seed)) as [resp | e]; [| done].
  by destruct (writeRecovered seed _ _) as [[records | e] st1].
Qed.

(** Recovery either fails and commits nothing, or succeeds and leaves the
    wallet storage as [setFloor (highest_index + 1)] makes it. *)
Lemma recoverSwaps_cases (backend : string → Result RecoverSwapsResponse.t) st :
  (∃ e, recoverSwaps backend st = (Err e, st))
  ∨ (∃ seed resp records st',
        seed_of (walletStorage st) = Some seed
        ∧ backend (identityKey seed) = Ok resp
        ∧ M_eval (writeRecovered seed (RecoverSwapsResponse.swaps resp)) st
          = Ok records
        ∧ recoverSwaps backend st = (Ok records, st')
        ∧ walletStorage st'
          = M_exec (setFloor (RecoverSwapsResponse.highest_index resp + 1))
              (walletStorage st)).
Proof.
  rewrite recoverSwaps_eq.
  destruct (seed_of (walletStorage st)) as [seed|] eqn:Hseed;
    [| left; by eexists].
  destruct (backend (identityKey seed)) as [resp | e] eqn:Hresp;
    [| left; by eexists].
  pose proof (writeRecovered_wallet seed (RecoverSwapsResponse.swaps resp) st)
    as Hwallet.
  unfold M_exec, M_eval in *.
  destruct (writeRecovered seed _ st) as [[records | e] st1] eqn:Hwrite;
    [| left; by eexists].
  cbn [snd] in Hwallet. right. exists seed, resp, records. eexists.
  split_and!; [done | done | by rewrite Hwrite | reflexivity |].
  cbn [walletStorage]. by rewrite Hwallet.
Qed.

End Counter.

(** ** Recovery and the counter *)

Section Recovery.
Context `{prim : Primitives}.
Import DexieWalletStorageProvider.
Implicit Types (st : ClientState) (t : gmap string WalletRecord.t) (n i : Z).

Lemma counter_setFloor n st st' :
  walletStorage st' = M_exec (setFloor n) (walletStorage st) →
  counter st' = Z.max (counter st) n.
Proof.
  intros Hst'. unfold counter. rewrite Hst'.
  unfold M_exec. rewrite setFloor_eq. cbn [snd].
  by rewrite setKeyIndex_counter.
Qed.

(** Recovery resolves whenever the seed loads, the backend answers and
    every reported index is in the supported range. *)
Lemma recoverSwaps_resolves (backend : string → Result RecoverSwapsResponse.t)
    st (seed : Seed) (resp : RecoverSwapsResponse.t) :
  M_eval loadSeed (walletStorage st) = Ok seed →
  backend (identityKey seed) = Ok resp →
  Forall (λ swap, (0 ≤ RecoveredSwap.index swap < MAX_INDEX)%Z)
    (RecoverSwapsResponse.swaps resp) →
  ∃ records, M_eval (recoverSwaps backend) st = Ok records.
Proof.
  unfold M_eval. rewrite loadSeed_eq, recoverSwaps_eq. cbn [fst].
  destruct (_ ≫= mnemonicToSeed) as [seed'|]; [| discriminate].
  intros [= ->] -> Hrange.
  destruct (writeRecovered_resolves seed _ st Hrange) as [records Hrec].
  unfold M_eval in Hrec.
  destruct (writeRecovered seed _ st) as [r st1]. cbn in Hrec. subst r.
  by eexists.
Qed.

(** C5: when [recoverSwaps] succeeds on a store whose counter is [c],
    with a backend response whose highest index is [h], the counter it
    leaves is [max c (h + 1)], so at least [h + 1] and never below [c];
    [setFloor] on its own never lowers the counter either. *)
Theorem recovery_raises_counter_to_max :
  ∀ (backend : string → Result RecoverSwapsResponse.t) (st : ClientState)
    (seed : Seed) (resp : RecoverSwapsResponse.t) (records : list JsObject),
    M_eval loadSeed (walletStorage st) = Ok seed →
    backend (identityKey seed) = Ok resp →
    M_eval (recoverSwaps backend) st = Ok records →
    counter (M_exec (recoverSwaps backend) st)
    = Z.max (counter st) (RecoverSwapsResponse.highest_index resp + 1)
    ∧ (RecoverSwapsResponse.highest_index resp + 1
       ≤ counter (M_exec (recoverSwaps backend) st))%Z
    ∧ (counter st ≤ counter (M_exec (recoverSwaps backend) st))%Z
    ∧ (∀ n : Z,
         M_eval (let* _ := setFloor n in getKeyIndex)%M (walletStorage st)
         = Ok (Z.max (counter st) n)).
Proof.
  intros backend st seed resp records Hseed Hresp Hok.
  assert (Hmax : counter (M_exec (recoverSwaps backend) st)
                 = Z.max (counter st) (RecoverSwapsResponse.highest_index resp + 1)).
  { unfold M_eval, M_exec in *. rewrite loadSeed_eq in Hseed. cbn [fst] in Hseed.
    destruct (recoverSwaps_cases backend st)
      as [[e He] | (seed' & resp' & records' & st' & Hs & Hr & _ & Hrun & Hw)].
    - rewrite He in Hok. discriminate Hok.
    - rewrite Hs in Hseed. injection Hseed as ->.
      rewrite Hresp in Hr. injection Hr as <-.
      rewrite Hrun. cbn [snd]. by apply counter_setFloor. }
  split_and!; [done | lia | lia |].
  intros n. unfold M_eval, M_bind. rewrite setFloor_eq. cbv beta iota.
  unfold getKeyIndex, M_read. cbn [fst]. by rewrite setKeyIndex_counter.
Qed.

End Recovery.

(** The recovery example of the specification on the stand-in primitives:
    counter 3, highest index 7, counter 8 afterwards. *)
Lemma recovery_raises_counter_to_max_witness :
  counter (M_exec (recoverSwaps (prim := test_primitives) example_recovery_backend)
             example_recovery_state)
  = Z.max (counter example_recovery_state) (7 + 1)
  ∧ (7 + 1 ≤ counter (M_exec (recoverSwaps (prim := test_primitives)
                                example_recovery_backend)
                        example_recovery_state))%Z
  ∧ (counter example_recovery_state
     ≤ counter (M_exec (recoverSwaps (prim := test_primitives)
                          example_recovery_backend)
                  example_recovery_state))%Z
  ∧ (∀ n : Z,
       M_eval (let* _ := setFloor n in DexieWalletStorageProvider.getKeyIndex)%M
         (walletStorage example_recovery_state)
       = Ok (Z.max (counter example_recovery_state) n)).
Proof.
  apply (recovery_raises_counter_to_max (prim := test_primitives)
           example_recovery_backend example_recovery_state testMnemonic
           {| RecoverSwapsResponse.swaps :=
                [ {| RecoveredSwap.id := "swap-b";
                     RecoveredSwap.index := 7;
                     RecoveredSwap.response :=
                       JObj [ ("id", JStr "swap-b");
                              ("status", JStr "serverfunded") ] |} ];
              RecoverSwapsResponse.highest_index := 7 |}
           [ ExtendedSwapStorageData
               (JObj [ ("id", JStr "swap-b"); ("status", JStr "serverfunded") ])
               (SwapParams.to_js
                  {| SwapParams.ownSk := childSecretKey (Primitives := test_primitives) testMnemonic 7;
                     SwapParams.ownPk :=
                       scalarMultBase (Primitives := test_primitives)
                         (childSecretKey (Primitives := test_primitives) testMnemonic 7);
                     SwapParams.preimage := childPreimage (Primitives := test_primitives) testMnemonic 7;
                     SwapParams.preimageHash :=
                       Hash (Primitives := test_primitives)
                         (childPreimage (Primitives := test_primitives) testMnemonic 7);
                     SwapParams.userId := identityKey (Primitives := test_primitives) testMnemonic;
                     SwapParams.keyIndex := 7 |}) ]);
    reflexivity.
Defined.

Example recovery_example_counter_is_8 :
  counter example_recovery_state = 3%Z
  ∧ counter (M_exec (recoverSwaps (prim := test_primitives) example_recovery_backend)
               example_recovery_state) = 8%Z.
Proof. split; reflexivity. Qed.

(** ** Issued indices *)

Section Issued.
Context `{prim : Primitives}.
Import DexieWalletStorageProvider.
Implicit Types (st : ClientState) (ops : list WalletOp) (n i : Z).

Lemma ClientState_eta st :
  {| walletStorage := walletStorage st; swapStorage := swapStorage st |} = st.
Proof. by destruct st. Qed.

(** One operation never lowers the counter, and an index it issues is the
    counter before it and one less than the counter after it. *)
Lemma wallet_step_counter (op : WalletOp) st :
  (counter st ≤ counter (wallet_step op st).2)%Z
  ∧ ∀ i, (wallet_step op st).1 = Some i →
         i = counter st ∧ counter (wallet_step op st).2 = (i + 1)%Z.
Proof.
  destruct op as [| j | backend |]; cbn [wallet_step].
  - unfold on_wallet.
    destruct (deriveSwapParams_cases (walletStorage st))
      as [[e He] | (p & seed & Hp & _ & _ & Hidx & _)].
    + rewrite He, ClientState_eta. cbn. split; [lia | discriminate].
    + rewrite Hp. cbn [fst snd]. unfold counter at 2 4. cbn [walletStorage].
      rewrite setKeyIndex_counter. fold (counter st). split; [lia |].
      intros i [= <-]. rewrite Hidx. by fold (counter st).
  - unfold on_wallet. rewrite deriveSwapParamsAtIndex_eq, ClientState_eta.
    cbn. split; [lia | discriminate].
  - cbn [fst snd]. split; [| discriminate].
    destruct (recoverSwaps_cases backend st)
      as [[e He] | (seed & resp & records & st' & _ & _ & _ & Hrun & Hw)].
    + rewrite He. cbn. lia.
    + rewrite Hrun. cbn [snd]. rewrite (counter_setFloor _ _ _ Hw). lia.
  - rewrite ClientState_eta. cbn. split; [lia | discriminate].
Qed.

Lemma wallet_run_cons (op : WalletOp) ops st :
  wallet_run (op :: ops) st
  = (from_option (λ i, [i]) [] (wallet_step op st).1
       ++ (wallet_run ops (wallet_step op st).2).1,
     (wallet_run ops (wallet_step op st).2).2).
Proof.
  cbn [wallet_run]. destruct (wallet_step op st) as [issued st'].
  cbn [fst snd]. by destruct (wallet_run ops st').
Qed.

Lemma wallet_run_app ops1 ops2 st :
  wallet_run (ops1 ++ ops2) st
  = ((wallet_run ops1 st).1 ++ (wallet_run ops2 (wallet_run ops1 st).2).1,
     (wallet_run ops2 (wallet_run ops1 st).2).2).
Proof.
  revert st. induction ops1 as [| op ops1 IH]; intros st.
  - cbn. by destruct (wallet_run ops2 st).
  - rewrite <- app_comm_cons, !wallet_run_cons, IH. cbn [fst snd].
    by rewrite (assoc_L (++)).
Qed.

(** The indices a run issues lie between the counter before and the
    counter after, and come out in strictly increasing order. *)
Lemma wallet_run_counter ops st :
  (counter st ≤ counter (wallet_run ops st).2)%Z
  ∧ Forall (λ i, (counter st ≤ i < counter (wallet_run ops st).2)%Z)
      (wallet_run ops st).1
  ∧ StronglySorted Z.lt (wallet_run ops st).1.
Proof.
  revert st. induction ops as [| op ops IH]; intros st.
  - cbn. split_and!; [lia | constructor | constructor].
  - rewrite wallet_run_cons. cbn [fst snd].
    destruct (wallet_step_counter op st) as [Hle Hissued].
    destruct (IH (wallet_step op st).2) as (Hle' & Hall & Hsorted).
    destruct (wallet_step op st).1 as [i|]; cbn [from_option app].
    + destruct (Hissued i eq_refl) as [-> Hnext]. split_and!.
      * lia.
      * constructor; [lia |]. eapply Forall_impl; [exact Hall |]. cbn. lia.
      * apply StronglySorted_cons. split; [| done].
        eapply Forall_impl; [exact Hall |]. cbn. lia.
    + split_and!; [lia | | done].
      eapply Forall_impl; [exact Hall |]. cbn. lia.
Qed.

Lemma StronglySorted_lt_NoDup (l : list Z) : StronglySorted Z.lt l → NoDup l.
Proof.
  induction 1 as [| x l _ IH Hall]; constructor; [| done].
  intros Hin. rewrite Forall_forall in Hall. specialize (Hall x Hin). lia.
Qed.

(** On a store whose mnemonic parses, [k] calls of [deriveSwapParams] that
    stay within the supported range issue the [k] consecutive indices from
    the counter on. *)
Lemma derive_run_consecutive (k : nat) st (seed : Seed) :
  M_eval loadSeed (walletStorage st) = Ok seed →
  (0 ≤ counter st)%Z →
  (counter st + Z.of_nat k ≤ MAX_INDEX)%Z →
  (wallet_run (replicate k OpDeriveSwapParams) st).1
  = seqZ (counter st) (Z.of_nat k)
  ∧ counter (wallet_run (replicate k OpDeriveSwapParams) st).2
    = (counter st + Z.of_nat k)%Z
  ∧ M_eval loadSeed (walletStorage (wallet_run (replicate k OpDeriveSwapParams) st).2)
    = Ok seed.
Proof.
  revert st. induction k as [| k IH]; intros st Hseed H0 Hmax.
  - cbn. split_and!; [done | lia | done].
  - cbn [replicate]. rewrite wallet_run_cons. cbn [fst snd].
    assert (Hstep : (wallet_step OpDeriveSwapParams st).1 = Some (counter st)
                    ∧ M_eval loadSeed
                        (walletStorage (wallet_step OpDeriveSwapParams st).2)
                      = Ok seed).
    { cbn [wallet_step]. unfold on_wallet.
      unfold M_eval in Hseed. rewrite loadSeed_eq in Hseed. cbn [fst] in Hseed.
      destruct (deriveSwapParams_cases (walletStorage st))
        as [[e He] | (p & seed' & Hp & Hs & _ & Hidx & _)].
      - exfalso. rewrite deriveSwapParams_eq in He.
        destruct (_ ≫= mnemonicToSeed); [| discriminate].
        rewrite bool_decide_eq_true_2 in He by (fold (counter st); lia).
        rewrite derive_in_range in He by (fold (counter st); lia).
        discriminate He.
      - rewrite Hp. cbn [fst snd walletStorage]. split.
        + by rewrite Hidx.
        + unfold M_eval. rewrite loadSeed_eq. cbn [fst].
          by rewrite setKeyIndex_seed. }
    destruct Hstep as [Hissued Hseed'].
    destruct (wallet_step_counter OpDeriveSwapParams st) as [_ Hnext].
    destruct (Hnext _ Hissued) as [_ Hc].
    rewrite Hissued. cbn [from_option].
    destruct (IH (wallet_step OpDeriveSwapParams st).2) as (Hrun & Hcount & Hs).
    { done. } { lia. } { lia. }
    rewrite Hrun, Hcount, Hc. split_and!; [| lia | done].
    rewrite (seqZ_cons (counter st) (Z.of_nat (S k))) by lia. cbn [app].
    do 2 f_equal; lia.
Qed.

(** C2: whatever a wallet process does on one storage (new derivations,
    re-derivations, recoveries, restarts on the persisted storage), the
    indices handed out for new swaps come out strictly increasing, so none
    is issued twice, and they lie between the counter before and the
    counter after; on a fresh store with a valid mnemonic, derivations
    before and after a restart issue 0, 1, 2, ... in turn. *)
Theorem issued_indices_strictly_increase :
  ∀ (ops : list WalletOp) (st : ClientState),
    StronglySorted Z.lt (wallet_run ops st).1
    ∧ NoDup (wallet_run ops st).1
    ∧ Forall (λ i, (counter st ≤ i < counter (wallet_run ops st).2)%Z)
        (wallet_run ops st).1
    ∧ (∀ (m : string) (seed : Seed) (k1 k2 : nat),
         mnemonicToSeed m = Some seed →
         (Z.of_nat (k1 + k2) ≤ MAX_INDEX)%Z →
         (wallet_run (replicate k1 OpDeriveSwapParams
                        ++ OpRestartProcess :: replicate k2 OpDeriveSwapParams)
            (fresh_client m)).1
         = seqZ 0 (Z.of_nat (k1 + k2))).
Proof.
  intros ops st.
  destruct (wallet_run_counter ops st) as (_ & Hall & Hsorted).
  split_and!; [done | by apply StronglySorted_lt_NoDup | done |].
  intros m seed k1 k2 Hm Hmax.
  assert (Hseed : M_eval loadSeed (walletStorage (fresh_client m)) = Ok seed).
  { unfold M_eval, fresh_client. rewrite loadSeed_eq. cbn [fst walletStorage].
    change (M_exec (setMnemonic m) ∅ !! WALLET_ID ≫= WalletRecord.mnemonic)
      with (Some m).
    cbn [mbind option_bind]. by rewrite Hm. }
  assert (Hc : counter (fresh_client m) = 0%Z) by reflexivity.
  rewrite wallet_run_app. cbn [fst].
  destruct (derive_run_consecutive k1 (fresh_client m) seed) as (Hrun1 & Hc1 & Hs1);
    [done | lia | lia |].
  rewrite wallet_run_cons. cbn [wallet_step fst snd from_option app].
  rewrite ClientState_eta.
  destruct (derive_run_consecutive k2
              (wallet_run (replicate k1 OpDeriveSwapParams) (fresh_client m)).2 seed)
    as (Hrun2 & _ & _); [done | lia | lia |].
  rewrite Hrun1, Hrun2, Hc1, Hc, Nat2Z.inj_add, seqZ_app by lia.
  reflexivity.
Qed.

End Issued.

(** wallet.test.ts, "should increment key index on each derivation", on
    the stand-in primitives, with a restart after the second call; and a
    run in which a recovery raises the counter between two derivations. *)
Lemma issued_indices_strictly_increase_witness :
  StronglySorted Z.lt
    (wallet_run (prim := test_primitives)
       [ OpDeriveSwapParams; OpRecoverSwaps example_recovery_backend;
         OpRestartProcess; OpDeriveSwapParams ]
       (fresh_client testMnemonic)).1
  ∧ NoDup
      (wallet_run (prim := test_primitives)
         [ OpDeriveSwapParams; OpRecoverSwaps example_recovery_backend;
           OpRestartProcess; OpDeriveSwapParams ]
         (fresh_client testMnemonic)).1
  ∧ (wallet_run (prim := test_primitives)
       (replicate 2 OpDeriveSwapParams
          ++ OpRestartProcess :: replicate 1 OpDeriveSwapParams)
       (fresh_client testMnemonic)).1
    = seqZ 0 (Z.of_nat (2 + 1)).
Proof.
  destruct (issued_indices_strictly_increase (prim := test_primitives)
              [ OpDeriveSwapParams; OpRecoverSwaps example_recovery_backend;
                OpRestartProcess; OpDeriveSwapParams ]
              (fresh_client testMnemonic)) as (Hsorted & Hnodup & _ & Hfresh).
  split_and!; [exact Hsorted | exact Hnodup |].
  apply (Hfresh testMnemonic testMnemonic 2%nat 1%nat).
  - reflexivity.
  - unfold MAX_INDEX. cbn. lia.
Defined.

Example derivation_after_recovery_skips_ahead :
  (wallet_run (prim := test_primitives)
     [ OpDeriveSwapParams; OpRecoverSwaps example_recovery_backend;
       OpRestartProcess; OpDeriveSwapParams ]
     (fresh_client testMnemonic)).1 = [0; 8]%Z.
Proof. reflexivity. Qed.

Example three_derivations_issue_0_1_2 :
  (wallet_run (prim := test_primitives)
     [OpDeriveSwapParams; OpDeriveSwapParams; OpDeriveSwapParams]
     (fresh_client testMnemonic)).1 = [0; 1; 2]%Z.
Proof. reflexivity. Qed.

(** ** Distinct indices *)

Section Uniqueness.
Context `{prim : Primitives}.

(** Bundles derived at distinct indices differ as bundles, because each
    records its own index. Whether their secret keys differ is a property
    of the key derivation of the cryptographic library: they do as soon as
    that derivation is injective in the index over the supported range,
    which nothing in this development establishes. *)
Lemma distinct_indices_distinct_keys_when_injective
    (seed : Seed) (i j : Z) (p q : SwapParams.t) :
  (∀ a b : Z, (0 ≤ a < MAX_INDEX)%Z → (0 ≤ b < MAX_INDEX)%Z →
              childSecretKey seed a = childSecretKey seed b → a = b) →
  derive seed i = Ok p →
  derive seed j = Ok q →
  i ≠ j →
  p ≠ q ∧ SwapParams.ownSk p ≠ SwapParams.ownSk q.
Proof.
  intros Hinj. unfold derive.
  case_bool_decide as Hi; [| discriminate].
  case_bool_decide as Hj; [| discriminate].
  intros [= <-] [= <-] Hij. cbn. split.
  - intros [= _ _ ?]. done.
  - intros Heq. by apply Hij, Hinj.
Qed.

End Uniqueness.

(** * Further properties of the sources *)

(** ** The swap store as a key-value map *)

Section SwapStoreMap.
Implicit Types (t : gmap IdbKey JsObject) (m : gmap string JsObject)
  (data : JsObject) (swapId : string).

Lemma obj_rest_obj_set_id swapId data :
  data !! "id" = None → obj_rest "id" (obj_set "id" (JStr swapId) data) = data.
Proof.
  intros Hid. unfold obj_rest, obj_set. by rewrite delete_insert_eq, delete_id.
Qed.

Lemma stored_item_without_id swapId data :
  data !! "id" = None →
  obj_spread data (obj_set "id" (JStr swapId) ∅) = obj_set "id" (JStr swapId) data.
Proof.
  intros Hid. unfold obj_spread, obj_set. apply map_eq. intros k.
  rewrite lookup_union. destruct (decide (k = "id")) as [-> | Hk].
  - by rewrite !lookup_insert_eq, Hid.
  - rewrite !lookup_insert_ne, lookup_empty by done. by destruct (data !! k).
Qed.

Lemma represents_empty : represents ∅ ∅.
Proof. split; [by intros s d; rewrite lookup_empty |]. by intros []. Qed.

Lemma represents_step (op : SwapStoreOp) t m :
  without_own_id op → represents t m →
  represents (swap_store_step op t) (swap_map_step op m).
Proof.
  intros Hop [Hfree Hrep]. destruct op as [swapId data | swapId |]; cbn in *.
  - rewrite store_without_id by done. cbn [snd]. split.
    + intros s d. rewrite lookup_insert. case_decide; [by intros [= <-] | apply Hfree].
    + intros [n | s].
      * rewrite lookup_insert_ne by done. apply (Hrep (KNum n)).
      * destruct (decide (swapId = s)) as [-> | Hs].
        -- rewrite !lookup_insert_eq. cbn. by rewrite stored_item_without_id.
        -- rewrite !lookup_insert_ne by congruence. apply (Hrep (KStr s)).
  - split.
    + intros s d. rewrite lookup_delete. case_decide; [done | apply Hfree].
    + intros [n | s].
      * unfold M_write. cbn. rewrite lookup_delete_ne by done. apply (Hrep (KNum n)).
      * unfold M_write. cbn. destruct (decide (swapId = s)) as [-> | Hs].
        -- by rewrite !lookup_delete_eq.
        -- rewrite !lookup_delete_ne by congruence. apply (Hrep (KStr s)).
  - apply represents_empty.
Qed.

Lemma represents_foldl (ops : list SwapStoreOp) t m :
  Forall without_own_id ops → represents t m →
  represents (foldl (λ t op, swap_store_step op t) t ops)
             (foldl (λ m op, swap_map_step op m) m ops).
Proof.
  intros Hops. revert t m.
  induction Hops as [| op ops Hop _ IH]; intros t m Hrep; cbn; [done |].
  by apply IH, represents_step.
Qed.

(** X1: as long as no stored data carries an [id] of its own, the
    provider behaves as a map from swap ids to data under any sequence of
    [store], [delete] and [clear]: [get] returns what the map holds, [list]
    returns the map's ids, each once and as strings, and [getAll] returns
    the map's entries with their id added. *)
Theorem swap_store_refines_map :
  ∀ ops : list SwapStoreOp,
    Forall without_own_id ops →
    (∀ swapId,
       M_eval (DexieSwapStorageProvider.get swapId) (swap_store_run ops)
       = Ok (swap_map_run ops !! swapId))
    ∧ (∃ ids, M_eval DexieSwapStorageProvider.list (swap_store_run ops) = Ok ids
              ∧ NoDup ids
              ∧ ∀ key, key ∈ ids ↔ ∃ s, key = KStr s ∧ is_Some (swap_map_run ops !! s))
    ∧ (∃ entries,
         M_eval DexieSwapStorageProvider.getAll (swap_store_run ops) = Ok entries
         ∧ ∀ e, e ∈ entries ↔
                ∃ s d, swap_map_run ops !! s = Some d ∧ e = obj_set "id" (JStr s) d).
Proof.
  intros ops Hops.
  destruct (represents_foldl ops ∅ ∅ Hops represents_empty) as [Hfree Hrep].
  fold (swap_store_run ops) in Hrep. fold (swap_map_run ops) in Hrep, Hfree.
  set (t := swap_store_run ops) in *. set (m := swap_map_run ops) in *.
  split_and!.
  - intros swapId. rewrite get_lookup, (Hrep (KStr swapId)).
    destruct (m !! swapId) as [d|] eqn:Hd; [| done]. cbn.
    by rewrite obj_rest_obj_set_id by by eapply Hfree.
  - exists (map_to_list t).*1. split_and!; [done | apply NoDup_fst_map_to_list |].
    intros key. rewrite list_elem_of_fmap. split.
    + intros ([k e] & -> & Hin%elem_of_map_to_list). cbn.
      rewrite Hrep in Hin. destruct k as [n | s]; [done |].
      exists s. split; [done |]. by destruct (m !! s).
    + intros (s & -> & [d Hd]). exists (KStr s, obj_set "id" (JStr s) d).
      split; [done |]. apply elem_of_map_to_list. by rewrite (Hrep (KStr s)), Hd.
  - exists (map_to_list t).*2. split; [done |].
    intros e. rewrite list_elem_of_fmap. split.
    + intros ([k e'] & -> & Hin%elem_of_map_to_list). cbn.
      rewrite Hrep in Hin. destruct k as [n | s]; [done |].
      destruct (m !! s) as [d|] eqn:Hd; [| done].
      exists s, d. split; [done |]. by injection Hin as <-.
    + intros (s & d & Hd & ->). exists (KStr s, obj_set "id" (JStr s) d).
      split; [done |]. apply elem_of_map_to_list. by rewrite (Hrep (KStr s)), Hd.
Qed.

Lemma swap_store_refines_map_witness :
  (∀ swapId,
     M_eval (DexieSwapStorageProvider.get swapId)
       (swap_store_run [ OpStore "swap-a" example_data; OpStore "swap-b" example_data;
                         OpDelete "swap-a"; OpStore "swap-b" example_update ])
     = Ok (swap_map_run
             [ OpStore "swap-a" example_data; OpStore "swap-b" example_data;
               OpDelete "swap-a"; OpStore "swap-b" example_update ] !! swapId))
  ∧ (∃ ids,
       M_eval DexieSwapStorageProvider.list
         (swap_store_run [ OpStore "swap-a" example_data; OpStore "swap-b" example_data;
                           OpDelete "swap-a"; OpStore "swap-b" example_update ])
       = Ok ids
       ∧ NoDup ids
       ∧ ∀ key, key ∈ ids ↔
                ∃ s, key = KStr s
                     ∧ is_Some (swap_map_run
                                  [ OpStore "swap-a" example_data;
                                    OpStore "swap-b" example_data;
                                    OpDelete "swap-a";
                                    OpStore "swap-b" example_update ] !! s))
  ∧ (∃ entries,
       M_eval DexieSwapStorageProvider.getAll
         (swap_store_run [ OpStore "swap-a" example_data; OpStore "swap-b" example_data;
                           OpDelete "swap-a"; OpStore "swap-b" example_update ])
       = Ok entries
       ∧ ∀ e, e ∈ entries ↔
              ∃ s d, swap_map_run
                       [ OpStore "swap-a" example_data; OpStore "swap-b" example_data;
                         OpDelete "swap-a"; OpStore "swap-b" example_update ] !! s
                     = Some d
                     ∧ e = obj_set "id" (JStr s) d).
Proof.
  apply (swap_store_refines_map
           [ OpStore "swap-a" example_data; OpStore "swap-b" example_data;
             OpDelete "swap-a"; OpStore "swap-b" example_update ]).
  repeat constructor.
Defined.

(** C9, as amended: in every store state reached by [store], [delete] and
    [clear] operations whose data has no [id] property of its own (the
    shape [ExtendedSwapStorageData] declares), [getAll] returns exactly
    one entry per stored id, and each entry is the record [get] returns
    for that id with the field [id], equal to that id, added; the record
    [get] returns has no [id]. *)
Theorem getAll_entries_are_get_results_plus_id :
  ∀ ops : list SwapStoreOp,
    Forall without_own_id ops →
    ∃ (entries : list JsObject) (ids : list IdbKey),
      M_eval DexieSwapStorageProvider.getAll (swap_store_run ops) = Ok entries
      ∧ M_eval DexieSwapStorageProvider.list (swap_store_run ops) = Ok ids
      ∧ NoDup ids
      ∧ length entries = length ids
      ∧ (λ e : JsObject, e !! "id") <$> entries
        = (λ k, Some (value_of_key k)) <$> ids
      ∧ (∀ key,
           key ∈ ids
           ↔ ∃ swapId data,
               key = KStr swapId
               ∧ M_eval (DexieSwapStorageProvider.get swapId) (swap_store_run ops)
                 = Ok (Some data))
      ∧ (∀ e,
           e ∈ entries
           ↔ ∃ swapId data,
               M_eval (DexieSwapStorageProvider.get swapId) (swap_store_run ops)
               = Ok (Some data)
               ∧ e = obj_set "id" (JStr swapId) data)
      ∧ (∀ swapId data,
           M_eval (DexieSwapStorageProvider.get swapId) (swap_store_run ops)
           = Ok (Some data) →
           data !! "id" = None).
Proof.
  intros ops Hops.
  destruct (represents_foldl ops ∅ ∅ Hops represents_empty) as [Hfree Hrep].
  pose proof (swap_store_run_keyed ops) as Hkeyed.
  fold (swap_store_run ops) in Hrep. fold (swap_map_run ops) in Hrep, Hfree.
  set (t := swap_store_run ops) in *. set (m := swap_map_run ops) in *.
  assert (Hget : ∀ swapId data,
             M_eval (DexieSwapStorageProvider.get swapId) t = Ok (Some data)
             ↔ m !! swapId = Some data).
  { intros swapId data. rewrite get_lookup, (Hrep (KStr swapId)).
    destruct (m !! swapId) as [d|] eqn:Hd; cbn; [| by split].
    rewrite obj_rest_obj_set_id by by eapply Hfree.
    split; by intros [= ->]. }
  exists (map_to_list t).*2, (map_to_list t).*1.
  split_and!.
  - reflexivity.
  - reflexivity.
  - apply NoDup_fst_map_to_list.
  - by rewrite !length_fmap.
  - rewrite <- !list_fmap_compose. apply list_fmap_ext.
    intros i [k rec] Hi. cbn. apply Hkeyed.
    apply elem_of_map_to_list. by eapply list_elem_of_lookup_2.
  - intros key. rewrite list_elem_of_fmap. split.
    + intros ([k e] & -> & Hin%elem_of_map_to_list). cbn.
      rewrite Hrep in Hin. destruct k as [n | s]; [done |].
      destruct (m !! s) as [d|] eqn:Hd; [| done].
      exists s, d. split; [done |]. by apply Hget.
    + intros (s & d & -> & Hd%Hget). exists (KStr s, obj_set "id" (JStr s) d).
      split; [done |]. apply elem_of_map_to_list. by rewrite (Hrep (KStr s)), Hd.
  - intros e. rewrite list_elem_of_fmap. split.
    + intros ([k e'] & -> & Hin%elem_of_map_to_list). cbn.
      rewrite Hrep in Hin. destruct k as [n | s]; [done |].
      destruct (m !! s) as [d|] eqn:Hd; [| done].
      exists s, d. split; [by apply Hget |]. by injection Hin as <-.
    + intros (s & d & Hd%Hget & ->). exists (KStr s, obj_set "id" (JStr s) d).
      split; [done |]. apply elem_of_map_to_list. by rewrite (Hrep (KStr s)), Hd.
  - intros swapId data Hd%Hget. by eapply Hfree.
Qed.

(** Two swaps stored, one deleted, the other updated: [getAll] returns the
    one record left, with its [id]. *)
Lemma getAll_entries_are_get_results_plus_id_witness :
  ∃ (entries : list JsObject) (ids : list IdbKey),
    M_eval DexieSwapStorageProvider.getAll
      (swap_store_run [ OpStore "swap-a" example_data; OpStore "swap-b" example_data;
                        OpDelete "swap-a"; OpStore "swap-b" example_update ])
    = Ok entries
    ∧ M_eval DexieSwapStorageProvider.list
        (swap_store_run [ OpStore "swap-a" example_data; OpStore "swap-b" example_data;
                          OpDelete "swap-a"; OpStore "swap-b" example_update ])
      = Ok ids
    ∧ NoDup ids
    ∧ length entries = length ids
    ∧ (λ e : JsObject, e !! "id") <$> entries
      = (λ k, Some (value_of_key k)) <$> ids
    ∧ (∀ key,
         key ∈ ids
         ↔ ∃ swapId data,
             key = KStr swapId
             ∧ M_eval (DexieSwapStorageProvider.get swapId)
                 (swap_store_run [ OpStore "swap-a" example_data;
                                   OpStore "swap-b" example_data;
                                   OpDelete "swap-a";
                                   OpStore "swap-b" example_update ])
               = Ok (Some data))
    ∧ (∀ e,
         e ∈ entries
         ↔ ∃ swapId data,
             M_eval (DexieSwapStorageProvider.get swapId)
               (swap_store_run [ OpStore "swap-a" example_data;
                                 OpStore "swap-b" example_data;
                                 OpDelete "swap-a";
                                 OpStore "swap-b" example_update ])
             = Ok (Some data)
             ∧ e = obj_set "id" (JStr swapId) data)
    ∧ (∀ swapId data,
         M_eval (DexieSwapStorageProvider.get swapId)
           (swap_store_run [ OpStore "swap-a" example_data;
                             OpStore "swap-b" example_data;
                             OpDelete "swap-a";
                             OpStore "swap-b" example_update ])
         = Ok (Some data) →
         data !! "id" = None).
Proof.
  apply (getAll_entries_are_get_results_plus_id
           [ OpStore "swap-a" example_data; OpStore "swap-b" example_data;
             OpDelete "swap-a"; OpStore "swap-b" example_update ]).
  repeat constructor.
Defined.

End SwapStoreMap.

(** ** [store], [delete] and [list] on any table *)

Section SwapStoreEdges.
Implicit Types (t : gmap IdbKey JsObject) (data : JsObject) (swapId : string).

Lemma store_eq swapId data t :
  DexieSwapStorageProvider.store swapId data t
  = match key_of_value (default (JStr swapId) (data !! "id")) with
    | Some k => (Ok tt, <[k := obj_spread data (obj_set "id" (JStr swapId) ∅)]> t)
    | None => (Err DataError, t)
    end.
Proof.
  unfold DexieSwapStorageProvider.store, Table.put, Table.key_of_item, Table.keyPath.
  by rewrite stored_item_id.
Qed.

Lemma stored_item_with_id swapId data v :
  data !! "id" = Some v →
  obj_spread data (obj_set "id" (JStr swapId) ∅) = data.
Proof.
  intros Hid. unfold obj_spread, obj_set. apply map_eq. intros k.
  rewrite lookup_union. destruct (decide (k = "id")) as [-> | Hk].
  - by rewrite lookup_insert_eq, Hid.
  - rewrite lookup_insert_ne, lookup_empty by done. by destruct (data !! k).
Qed.

(** X2: [store] resolves when the data has no [id] property of its own,
    or has one that is a string or an integer; it rejects, with a
    [DataError], and leaves the table as it was, when the data's own [id]
    is [undefined], [null], a boolean or a plain object, none of which is
    a valid key. *)
Theorem swap_store_rejects_invalid_own_id :
  ∀ (t : gmap IdbKey JsObject) (swapId : string) (data : JsObject),
    (data !! "id" = None →
     M_eval (DexieSwapStorageProvider.store swapId data) t = Ok tt)
    ∧ (∀ s : string,
         data !! "id" = Some (JStr s) →
         M_eval (DexieSwapStorageProvider.store swapId data) t = Ok tt)
    ∧ (∀ n : Z,
         data !! "id" = Some (JNum n) →
         M_eval (DexieSwapStorageProvider.store swapId data) t = Ok tt)
    ∧ (∀ v : JsValue,
         data !! "id" = Some v →
         v = JUndefined ∨ v = JNull ∨ (∃ b, v = JBool b) ∨ (∃ fields, v = JObj fields) →
         M_eval (DexieSwapStorageProvider.store swapId data) t = Err DataError
         ∧ M_exec (DexieSwapStorageProvider.store swapId data) t = t).
Proof.
  intros t swapId data. unfold M_eval, M_exec. rewrite store_eq.
  split_and!.
  - by intros ->.
  - by intros s ->.
  - by intros n ->.
  - intros v -> [-> | [-> | [[b ->] | [fields ->]]]]; by split.
Qed.

(** X3: when the data has a string [id] of its own, [store] files the
    record under that [id], whatever swap id it was given: [get] on the
    data's id returns the data (without [id]), and [get] on the swap id
    passed in, if different, returns what it returned before. *)
Theorem swap_store_own_id_takes_precedence :
  ∀ (t : gmap IdbKey JsObject) (swapId own : string) (data : JsObject),
    data !! "id" = Some (JStr own) →
    M_eval (DexieSwapStorageProvider.store swapId data) t = Ok tt
    ∧ M_eval (let* _ := DexieSwapStorageProvider.store swapId data in
              DexieSwapStorageProvider.get own)%M t
      = Ok (Some (obj_rest "id" data))
    ∧ (own ≠ swapId →
       M_eval (let* _ := DexieSwapStorageProvider.store swapId data in
               DexieSwapStorageProvider.get swapId)%M t
       = M_eval (DexieSwapStorageProvider.get swapId) t).
Proof.
  intros t swapId own data Hid.
  pose proof get_lookup as Hget.
  unfold M_eval, M_bind in *. rewrite store_eq, Hid.
  cbv [default from_option id key_of_value].
  cbv beta iota. rewrite (stored_item_with_id _ _ _ Hid), !Hget.
  split_and!; [done | by rewrite lookup_insert_eq |].
  intros Hne. by rewrite lookup_insert_ne by congruence.
Qed.

Lemma swap_store_own_id_takes_precedence_witness :
  M_eval (DexieSwapStorageProvider.store "swap-a" example_SwapRecord) ∅ = Ok tt
  ∧ M_eval (let* _ := DexieSwapStorageProvider.store "swap-a" example_SwapRecord in
            DexieSwapStorageProvider.get "swap-b")%M ∅
    = Ok (Some (obj_rest "id" example_SwapRecord))
  ∧ ("swap-b" ≠ "swap-a" →
     M_eval (let* _ := DexieSwapStorageProvider.store "swap-a" example_SwapRecord in
             DexieSwapStorageProvider.get "swap-a")%M ∅
     = M_eval (DexieSwapStorageProvider.get "swap-a") ∅).
Proof.
  apply (swap_store_own_id_takes_precedence ∅ "swap-a" "swap-b" example_SwapRecord).
  reflexivity.
Defined.

(** X4: [delete] always resolves; afterwards [get] on that id returns
    [null] and [get] on any other id returns what it returned before;
    deleting an id that is not stored leaves the table as it was, and
    deleting twice is the same as deleting once. *)
Theorem swap_store_delete_removes_one :
  ∀ (t : gmap IdbKey JsObject) (swapId other : string),
    M_eval (DexieSwapStorageProvider.delete swapId) t = Ok tt
    ∧ M_eval (let* _ := DexieSwapStorageProvider.delete swapId in
              DexieSwapStorageProvider.get swapId)%M t = Ok None
    ∧ (other ≠ swapId →
       M_eval (let* _ := DexieSwapStorageProvider.delete swapId in
               DexieSwapStorageProvider.get other)%M t
       = M_eval (DexieSwapStorageProvider.get other) t)
    ∧ (M_eval (DexieSwapStorageProvider.get swapId) t = Ok None →
       M_exec (DexieSwapStorageProvider.delete swapId) t = t)
    ∧ M_exec (let* _ := DexieSwapStorageProvider.delete swapId in
              DexieSwapStorageProvider.delete swapId)%M t
      = M_exec (DexieSwapStorageProvider.delete swapId) t.
Proof.
  intros t swapId other. pose proof get_lookup as Hget.
  unfold M_eval, M_exec, M_bind, DexieSwapStorageProvider.delete, Table.delete,
    M_write in *.
  cbv beta iota. cbn [fst snd]. rewrite !Hget.
  split_and!.
  - done.
  - by rewrite lookup_delete_eq.
  - intros Hne. by rewrite lookup_delete_ne by congruence.
  - destruct (t !! KStr swapId) eqn:Hk; [discriminate |].
    intros _. by apply delete_id.
  - apply delete_id. by rewrite lookup_delete_eq.
Qed.

(** X5: on any table, [list] has no duplicates and contains the string
    key of a swap id exactly when [get] on that id returns a record; it
    has as many keys as [getAll] has entries. *)
Theorem swap_store_list_agrees_with_get :
  ∀ (t : gmap IdbKey JsObject),
    ∃ ids entries,
      M_eval DexieSwapStorageProvider.list t = Ok ids
      ∧ M_eval DexieSwapStorageProvider.getAll t = Ok entries
      ∧ NoDup ids
      ∧ length ids = length entries
      ∧ length ids = size t
      ∧ ∀ swapId : string,
          KStr swapId ∈ ids
          ↔ ∃ data, M_eval (DexieSwapStorageProvider.get swapId) t = Ok (Some data).
Proof.
  intros t. exists (map_to_list t).*1, (map_to_list t).*2.
  split_and!; try done.
  - apply NoDup_fst_map_to_list.
  - by rewrite !length_fmap.
  - by rewrite length_fmap, length_map_to_list.
  - intros swapId. rewrite get_lookup, list_elem_of_fmap. split.
    + intros ([k e] & Hk & Hin%elem_of_map_to_list). cbn in Hk. subst k.
      rewrite Hin. by eexists.
    + intros [data Hdata]. destruct (t !! KStr swapId) as [e|] eqn:He; [| done].
      exists (KStr swapId, e). split; [done |]. by apply elem_of_map_to_list.
Qed.

End SwapStoreEdges.

(** ** The wallet store as two registers *)

Section WalletStoreRegisters.
Import DexieWalletStorageProvider.
Implicit Types (t : gmap string WalletRecord.t) (index : Z) (m : string).

Lemma setKeyIndex_others index t :
  delete WALLET_ID (M_exec (setKeyIndex index) t) = delete WALLET_ID t.
Proof.
  unfold M_exec, setKeyIndex, M_bind, M_read, M_write. cbn.
  by rewrite delete_insert_eq.
Qed.

Lemma setMnemonic_others m t :
  delete WALLET_ID (M_exec (setMnemonic m) t) = delete WALLET_ID t.
Proof.
  unfold M_exec, setMnemonic, M_bind, M_read, M_write. cbn.
  by rewrite delete_insert_eq.
Qed.

Lemma holds_step (op : WalletStoreOp) t r :
  holds t r → holds (wallet_store_step op t) (wallet_registers_step op r).
Proof.
  intros (Hm & Hi & Hrest).
  destruct op as [m | index |]; cbn [wallet_store_step wallet_registers_step].
  - split_and!; cbn [fst snd].
    + apply getMnemonic_setMnemonic.
    + by rewrite getKeyIndex_setMnemonic.
    + by rewrite setMnemonic_others.
  - split_and!; cbn [fst snd].
    + by rewrite getMnemonic_setKeyIndex.
    + apply getKeyIndex_setKeyIndex.
    + by rewrite setKeyIndex_others.
  - split_and!; reflexivity.
Qed.

Lemma holds_foldl (ops : list WalletStoreOp) t r :
  holds t r →
  holds (foldl (λ t op, wallet_store_step op t) t ops)
        (foldl (λ r op, wallet_registers_step op r) r ops).
Proof.
  revert t r. induction ops as [| op ops IH]; intros t r Hr; cbn; [done |].
  by apply IH, holds_step.
Qed.

(** X6: under any sequence of [setMnemonic], [setKeyIndex] and [clear] on
    an empty database, the wallet store is two registers: [getMnemonic]
    returns the last mnemonic set since the last [clear] (or [null]),
    [getKeyIndex] the last index set since the last [clear] (or 0), and
    the table never holds more than the one wallet record. *)
Theorem wallet_store_refines_registers :
  ∀ ops : list WalletStoreOp,
    M_eval getMnemonic (wallet_store_run ops) = Ok (wallet_registers ops).1
    ∧ M_eval getKeyIndex (wallet_store_run ops) = Ok (wallet_registers ops).2
    ∧ size (wallet_store_run ops) ≤ 1
    ∧ ∀ k, k ≠ WALLET_ID → wallet_store_run ops !! k = None.
Proof.
  intros ops.
  destruct (holds_foldl ops ∅ (None, 0%Z)) as (Hm & Hi & Hrest).
  { split_and!; reflexivity. }
  fold (wallet_store_run ops) in Hm, Hi, Hrest.
  fold (wallet_registers ops) in Hm, Hi.
  split_and!; [done | done | |].
  - pose proof (map_size_delete WALLET_ID (wallet_store_run ops)) as Hsize.
    rewrite Hrest, map_size_empty in Hsize.
    destruct (wallet_store_run ops !! WALLET_ID); cbn in Hsize; lia.
  - intros k Hk. rewrite <- (lookup_delete_ne _ WALLET_ID k) by done.
    by rewrite Hrest, lookup_empty.
Qed.

(** X7: the two setters commute: setting the mnemonic and then the key
    index leaves the same table as setting them in the other order, and
    setting the same register twice keeps the second value only. *)
Theorem wallet_store_setters_commute :
  ∀ (t : gmap string WalletRecord.t) (m m' : string) (index index' : Z),
    M_exec (let* _ := setMnemonic m in setKeyIndex index)%M t
    = M_exec (let* _ := setKeyIndex index in setMnemonic m)%M t
    ∧ M_exec (let* _ := setMnemonic m' in setMnemonic m)%M t
      = M_exec (setMnemonic m) t
    ∧ M_exec (let* _ := setKeyIndex index' in setKeyIndex index)%M t
      = M_exec (setKeyIndex index) t.
Proof.
  intros t m m' index index'.
  unfold M_exec, setMnemonic, setKeyIndex, M_bind, M_read, M_write. cbn.
  by rewrite !lookup_insert_eq, !insert_insert_eq.
Qed.

End WalletStoreRegisters.

(** ** [fromWasm] *)

Section FromWasm.
Implicit Types (entries : list (string * JsValue)) (o : JsObject).

Lemma Object_fromEntries_snoc entries k v :
  Object_fromEntries (entries ++ [(k, v)]) = <[k := v]> (Object_fromEntries entries).
Proof. unfold Object_fromEntries. by rewrite foldl_snoc. Qed.

Lemma Object_fromEntries_lookup_None entries k :
  k ∉ entries.*1 → Object_fromEntries entries !! k = None.
Proof.
  induction entries as [| [k' v'] entries IH] using rev_ind; [done |].
  rewrite fmap_app, not_elem_of_app, Object_fromEntries_snoc. cbn.
  intros [Hin Hk%not_elem_of_cons]. rewrite lookup_insert_ne by naive_solver.
  by apply IH.
Qed.

(** X8: [fromWasm] turns a [Map] into the object with exactly its
    entries: when the keys are distinct (as the keys of a [Map] are), a
    property has a value in the object exactly when that pair is an entry;
    in general an entry put last wins; converting the entries of an object
    gives that object back, as does passing the object itself. *)
Theorem fromWasm_has_exactly_the_entries :
  ∀ (entries : list (string * JsValue)),
    NoDup entries.*1 →
    (∀ k v, fromWasm (WasmMap entries) !! k = Some v ↔ (k, v) ∈ entries)
    ∧ (∀ k v, fromWasm (WasmMap (entries ++ [(k, v)])) !! k = Some v)
    ∧ (∀ o : JsObject, fromWasm (WasmMap (map_to_list o)) = o)
    ∧ (∀ o : JsObject, fromWasm (WasmPlain o) = o).
Proof.
  intros entries Hnodup. cbn [fromWasm].
  assert (Hspec : ∀ es : list (string * JsValue),
             NoDup es.*1 →
             ∀ k v, Object_fromEntries es !! k = Some v ↔ (k, v) ∈ es).
  { clear. intros es. induction es as [| [k' v'] es IH] using rev_ind;
      intros Hnodup k v.
    - cbn. rewrite lookup_empty, elem_of_nil. naive_solver.
    - rewrite fmap_app in Hnodup. apply NoDup_app in Hnodup as (Hes & Hdisj & _).
      rewrite Object_fromEntries_snoc, elem_of_app, list_elem_of_singleton.
      destruct (decide (k' = k)) as [-> | Hk].
      + rewrite lookup_insert_eq. split.
        * intros [= ->]. by right.
        * intros [Hin | [= ->]]; [| done]. exfalso.
          apply (Hdisj k); [| cbn; left].
          apply list_elem_of_fmap. by exists (k, v).
      + rewrite lookup_insert_ne by done. rewrite IH by done. naive_solver. }
  split_and!.
  - by apply Hspec.
  - intros k v. by rewrite Object_fromEntries_snoc, lookup_insert_eq.
  - intros o. apply map_eq. intros k. apply option_eq. intros v.
    rewrite Hspec by apply NoDup_fst_map_to_list.
    by rewrite elem_of_map_to_list.
  - done.
Qed.

Lemma fromWasm_has_exactly_the_entries_witness :
  (∀ k v, fromWasm (WasmMap [ ("id", JStr "swap-b"); ("status", JStr "pending") ])
            !! k = Some v
          ↔ (k, v) ∈ [ ("id", JStr "swap-b"); ("status", JStr "pending") ])
  ∧ (∀ k v, fromWasm (WasmMap ([ ("id", JStr "swap-b"); ("status", JStr "pending") ]
                                ++ [(k, v)])) !! k = Some v)
  ∧ (∀ o : JsObject, fromWasm (WasmMap (map_to_list o)) = o)
  ∧ (∀ o : JsObject, fromWasm (WasmPlain o) = o).
Proof.
  apply (fromWasm_has_exactly_the_entries
           [ ("id", JStr "swap-b"); ("status", JStr "pending") ]).
  apply (bool_decide_unpack (NoDup ["id"; "status"])). by vm_compute.
Defined.

End FromWasm.

(** ** [initWasm] *)

Section InitWasm.
Implicit Types (isNode : bool) (outcome : WasmSource → Result unit)
  (args : list (option string)) (st : WasmModule).

Lemma initWasm_calls_settled isNode outcome args st settled :
  initPromise st = Some settled →
  initWasm_calls isNode outcome args st = (replicate (length args) settled, st).
Proof.
  intros Hst. induction args as [| a args IH]; [done |].
  cbn [initWasm_calls]. unfold initWasm. by rewrite Hst, IH.
Qed.

(** X9: however often [initWasm] is called and with whatever paths, the
    binary is loaded once, from the source the first call selects; every
    call settles to the outcome of that one load, so a failed load is
    never tried again and the path of a later call is never looked at. *)
Theorem initWasm_loads_once :
  ∀ (isNode : bool) (outcome : WasmSource → Result unit)
    (first : option string) (rest : list (option string)),
    initWasm_calls isNode outcome (first :: rest) WasmModule_initial
    = (replicate (S (length rest)) (outcome (wasm_source isNode first)),
       {| initPromise := Some (outcome (wasm_source isNode first));
          loads := [wasm_source isNode first] |})
    ∧ wasm_source isNode None = (if isNode then NodeModuleFile else BrowserFetch)
    ∧ wasm_source isNode (Some "") = wasm_source isNode None
    ∧ ∀ p, p ≠ "" → wasm_source isNode (Some p) = CustomPath p.
Proof.
  intros isNode outcome first rest. split_and!.
  - cbn [initWasm_calls]. unfold initWasm at 1. cbn [WasmModule_initial initPromise loads app].
    by rewrite (initWasm_calls_settled _ _ _ _ (outcome (wasm_source isNode first))).
  - by destruct isNode.
  - by destruct isNode.
  - intros p Hp. unfold wasm_source, path_given.
    rewrite bool_decide_eq_true_2 by done. by destruct isNode.
Qed.

End InitWasm.

(** ** The price feed URL *)

Section FeedUrl.
Implicit Types (url : list Ascii.ascii) (baseUrl : string).

Lemma chars_string_of_list_ascii url :
  chars (String.string_of_list_ascii url) = url.
Proof. apply String.list_ascii_of_string_of_list_ascii. Qed.

Lemma ensure_prices_path_suffix url :
  chars "/ws/prices" `suffix_of` ensure_prices_path url.
Proof.
  unfold ensure_prices_path. case_decide; [done |]. by apply suffix_app_r.
Qed.

Lemma not_http_prefix_app url :
  ¬ chars "http" `prefix_of` url →
  ¬ chars "http" `prefix_of` url ++ chars "/ws/prices".
Proof.
  intros Hno [k Hk]. apply Hno. cbn in Hk.
  destruct url as [| a [| b [| c [| d url]]]]; cbn in Hk;
    try discriminate Hk.
  injection Hk as -> -> -> -> _. by exists url.
Qed.

Lemma replace_leading_http_not_http url :
  ¬ chars "http" `prefix_of` replace_leading_http url.
Proof.
  unfold replace_leading_http. case_decide as Hp; [| done].
  intros Hw%prefix_cons_inv_1. discriminate Hw.
Qed.

Lemma ensure_prices_path_not_http url :
  ¬ chars "http" `prefix_of` url →
  ¬ chars "http" `prefix_of` ensure_prices_path url.
Proof.
  intros Hno. unfold ensure_prices_path. case_decide; [done |].
  by apply not_http_prefix_app.
Qed.

(** X10: the URL a [PriceFeedService] connects to always ends with
    [/ws/prices] and never begins with [http] (a leading [http] has
    become [ws], so [https] has become [wss]); building a service from
    that URL gives the same URL again. *)
Theorem feed_url_is_normalised :
  ∀ baseUrl : string,
    chars "/ws/prices" `suffix_of` chars (wsUrl (PriceFeed.new baseUrl))
    ∧ ¬ chars "http" `prefix_of` chars (wsUrl (PriceFeed.new baseUrl))
    ∧ wsUrl (PriceFeed.new (wsUrl (PriceFeed.new baseUrl)))
      = wsUrl (PriceFeed.new baseUrl)
    ∧ wsUrl (PriceFeed.new "https://api.lendaswap.com")
      = "wss://api.lendaswap.com/ws/prices"
    ∧ wsUrl (PriceFeed.new "http://localhost:8080/ws/prices")
      = "ws://localhost:8080/ws/prices".
Proof.
  intros baseUrl. cbn [PriceFeed.new wsUrl]. unfold wsUrl_of.
  rewrite !chars_string_of_list_ascii.
  set (url := ensure_prices_path (replace_leading_http (chars baseUrl))).
  assert (Hsuffix : chars "/ws/prices" `suffix_of` url)
    by apply ensure_prices_path_suffix.
  assert (Hhttp : ¬ chars "http" `prefix_of` url)
    by apply ensure_prices_path_not_http, replace_leading_http_not_http.
  split_and!; [done | done | | reflexivity | reflexivity].
  f_equal. unfold replace_leading_http at 1. rewrite decide_False by done.
  unfold ensure_prices_path at 1. by rewrite decide_True by done.
Qed.

End FeedUrl.

(** ** The price feed as a state machine *)

Section FeedInvariant.
Import PriceFeed.
Implicit Types (st : PriceFeedService) (ev : FeedEvent) (cb s : nat).

Lemma Set_add_NoDup cb (l : list nat) : NoDup l → NoDup (Set_add cb l).
Proof.
  intros Hl. unfold Set_add. case_decide as Hin; [done |].
  apply NoDup_app. split_and!; [done | | apply NoDup_singleton].
  intros x Hx ->%list_elem_of_singleton. done.
Qed.

Lemma Set_add_elem cb (l : list nat) : cb ∈ Set_add cb l.
Proof.
  unfold Set_add. case_decide; [done |]. apply elem_of_app. right. by left.
Qed.

Lemma Set_add_nonempty cb (l : list nat) : Set_add cb l ≠ [].
Proof. intros Hnil. pose proof (Set_add_elem cb l) as Hin. rewrite Hnil in Hin. by apply elem_of_nil in Hin. Qed.

Lemma Set_delete_NoDup cb (l : list nat) : NoDup l → NoDup (Set_delete cb l).
Proof. apply NoDup_filter. Qed.

Lemma backoff_double d :
  d ∈ backoff_delays → Z.min (d * 2) maxReconnectDelay ∈ backoff_delays.
Proof.
  unfold backoff_delays, maxReconnectDelay. rewrite !elem_of_cons, !elem_of_nil.
  intros [-> | [-> | [-> | [-> | [-> | [-> | []]]]]]]; cbn; tauto.
Qed.

Lemma isConnected_ws st : isConnected st = true → is_Some (ws st).
Proof. unfold isConnected. destruct (ws st); [by eexists | done]. Qed.

Lemma wants_reconnect_true st :
  wants_reconnect st = true → listeners st ≠ [] ∧ isManualClose st = false.
Proof.
  unfold wants_reconnect. intros [Hl Hm]%andb_true_iff.
  apply bool_decide_eq_true in Hl. apply negb_true_iff in Hm.
  split; [| done]. intros Hnil. rewrite Hnil in Hl. cbn in Hl. lia.
Qed.

Local Ltac feed_solve :=
  try done;
  first
    [ by (unfold backoff_delays; left)
    | by apply NoDup_nil_2
    | by apply Set_add_NoDup
    | by apply Set_delete_NoDup
    | by apply backoff_double
    | by (intros _; apply Set_add_nonempty)
    | by (let H := fresh in intros H; apply Set_add_nonempty in H)
    | by intros []
    | by (intros ? [= <-]; rewrite length_app; cbn; lia)
    | by (intros ? ?; rewrite length_insert; eauto)
    | by (intros ? [= <-])
    | idtac ].

Lemma invariant_new baseUrl : feed_invariant (new baseUrl).
Proof. constructor; cbn; feed_solve. Qed.

Lemma invariant_scheduleReconnect st :
  feed_invariant st → listeners st ≠ [] → isManualClose st = false →
  feed_invariant (scheduleReconnect st).
Proof.
  intros [] Hl Hm. unfold scheduleReconnect.
  destruct (reconnectTimer st) eqn:Ht; constructor; cbn; feed_solve.
  by rewrite Ht.
Qed.

Lemma invariant_connect constructible st :
  feed_invariant st → listeners st ≠ [] → feed_invariant (connect constructible st).
Proof.
  intros Hinv Hl. unfold connect.
  destruct (isConnected st) eqn:Hc; [done |].
  set (st1 := {| wsUrl := wsUrl st; ws := ws st;
                 reconnectTimer := reconnectTimer st;
                 listeners := listeners st; reconnectDelay := reconnectDelay st;
                 isManualClose := false; sockets := sockets st |}).
  assert (Hinv1 : feed_invariant st1).
  { destruct Hinv. constructor; cbn; feed_solve. }
  destruct constructible.
  - destruct Hinv1. constructor; cbn in *; feed_solve.
  - destruct (wants_reconnect st1) eqn:Hw; [| done].
    by apply invariant_scheduleReconnect.
Qed.

Lemma invariant_close st : feed_invariant st → feed_invariant (close st).
Proof. intros []. constructor; cbn; feed_solve. Qed.

Lemma invariant_step ev st : feed_invariant st → feed_invariant (feed_step ev st).
Proof.
  intros Hinv. destruct ev as [cb c | cb | | s | s | s | s | c]; cbn [feed_step];
    try done.
  - (* subscribe *)
    unfold subscribe.
    set (st1 := {| wsUrl := wsUrl st; ws := ws st;
                   reconnectTimer := reconnectTimer st;
                   listeners := Set_add cb (listeners st);
                   reconnectDelay := reconnectDelay st;
                   isManualClose := isManualClose st; sockets := sockets st |}).
    assert (Hinv1 : feed_invariant st1).
    { destruct Hinv. constructor; cbn; feed_solve. }
    destruct (isConnected st1) eqn:Hc; cbn [negb]; [done |].
    apply invariant_connect; [done |]. apply Set_add_nonempty.
  - (* unsubscribe *)
    unfold unsubscribe.
    set (st1 := {| wsUrl := wsUrl st; ws := ws st;
                   reconnectTimer := reconnectTimer st;
                   listeners := Set_delete cb (listeners st);
                   reconnectDelay := reconnectDelay st;
                   isManualClose := isManualClose st; sockets := sockets st |}).
    case_bool_decide as Hempty.
    + destruct Hinv. constructor; cbn; feed_solve.
    + assert (Hne : Set_delete cb (listeners st) ≠ []).
      { intros Hnil. apply Hempty. cbn. by rewrite Hnil. }
      destruct Hinv. constructor; cbn; feed_solve.
  - (* close *)
    by apply invariant_close.
  - (* onopen *)
    unfold onopen. case_bool_decide; [| done].
    destruct Hinv. constructor; cbn; feed_solve.
  - (* onclose *)
    unfold onclose.
    destruct (sockets st !! s) as [r|] eqn:Hs; [| done].
    set (st1 := {| wsUrl := wsUrl st; ws := None;
                   reconnectTimer := reconnectTimer st;
                   listeners := listeners st; reconnectDelay := reconnectDelay st;
                   isManualClose := isManualClose st;
                   sockets := <[s := CLOSED]> (sockets st) |}).
    assert (Hinv1 : feed_invariant st1).
    { destruct Hinv. constructor; cbn; feed_solve. }
    destruct r; try done;
      (destruct (wants_reconnect st1) eqn:Hw; [| done];
       apply wants_reconnect_true in Hw as [Hl Hm];
       by apply invariant_scheduleReconnect).
  - (* the timer *)
    unfold timer_fires. destruct (reconnectTimer st) as [d|] eqn:Ht; [| done].
    set (st1 := {| wsUrl := wsUrl st; ws := ws st; reconnectTimer := None;
                   listeners := listeners st; reconnectDelay := reconnectDelay st;
                   isManualClose := isManualClose st; sockets := sockets st |}).
    assert (Hl : listeners st ≠ []).
    { destruct Hinv. apply inv_timer_listeners0. by rewrite Ht. }
    assert (Hinv1 : feed_invariant st1).
    { destruct Hinv. constructor; cbn; feed_solve. }
    pose proof (invariant_connect c st1 Hinv1 Hl) as Hinv2.
    destruct Hinv2. constructor; cbn; feed_solve.
Qed.

Lemma invariant_foldl (evs : list FeedEvent) st :
  feed_invariant st → feed_invariant (foldl (λ st ev, feed_step ev st) st evs).
Proof.
  revert st. induction evs as [| ev evs IH]; intros st Hinv; cbn; [done |].
  by apply IH, invariant_step.
Qed.

Lemma feed_run_invariant baseUrl (evs : list FeedEvent) :
  feed_invariant (feed_run baseUrl evs).
Proof. apply invariant_foldl, invariant_new. Qed.

End FeedInvariant.

Section FeedProperties.
Import PriceFeed.
Implicit Types (st : PriceFeedService) (cb s : nat).

(** X11: whatever its user and its sockets do, the reconnect delay of a
    service is one of 1, 2, 4, 8, 16 or 30 seconds, so it stays between
    the initial second and the maximum, and so does the delay a pending
    reconnect timer was armed with. *)
Theorem feed_backoff_is_bounded :
  ∀ (baseUrl : string) (evs : list FeedEvent),
    reconnectDelay (feed_run baseUrl evs) ∈ backoff_delays
    ∧ (1000 ≤ reconnectDelay (feed_run baseUrl evs) ≤ maxReconnectDelay)%Z
    ∧ (∀ d, reconnectTimer (feed_run baseUrl evs) = Some d →
            d ∈ backoff_delays ∧ (1000 ≤ d ≤ maxReconnectDelay)%Z).
Proof.
  intros baseUrl evs. destruct (feed_run_invariant baseUrl evs) as [Hd Ht _ _ _ _ _ _].
  assert (Hbound : ∀ d, d ∈ backoff_delays → (1000 ≤ d ≤ maxReconnectDelay)%Z).
  { intros d. unfold backoff_delays, maxReconnectDelay.
    rewrite !elem_of_cons, elem_of_nil. lia. }
  split_and!; [done | by apply Hbound | by apply Hbound |].
  intros d Hd'. split; [by apply Ht | by apply Hbound, Ht].
Qed.

(** X12: a service keeps a socket or a pending reconnect only while it has
    listeners and has not been closed by hand: in every reachable state
    without listeners, and in every reachable state after a manual close
    that no [subscribe] has followed, there is no current socket, no
    pending timer, and [isConnected] is false. *)
Theorem feed_idle_when_unused :
  ∀ (baseUrl : string) (evs : list FeedEvent),
    (listenerCount (feed_run baseUrl evs) = 0 →
     ws (feed_run baseUrl evs) = None
     ∧ reconnectTimer (feed_run baseUrl evs) = None
     ∧ isConnected (feed_run baseUrl evs) = false)
    ∧ (isManualClose (feed_run baseUrl evs) = true →
       ws (feed_run baseUrl evs) = None
       ∧ reconnectTimer (feed_run baseUrl evs) = None
       ∧ isConnected (feed_run baseUrl evs) = false).
Proof.
  intros baseUrl evs.
  destruct (feed_run_invariant baseUrl evs) as [_ _ Htl Htm Hmw Hidle _ _].
  set (st := feed_run baseUrl evs) in *.
  split.
  - intros Hcount. unfold listenerCount in Hcount.
    apply length_zero_iff_nil in Hcount.
    assert (Hws : ws st = None) by by apply Hidle.
    split_and!; [done | | by unfold isConnected; rewrite Hws].
    destruct (reconnectTimer st) eqn:Ht; [| done].
    destruct Htl; [by eexists | done].
  - intros Hmanual.
    assert (Hws : ws st = None) by by apply Hmw.
    split_and!; [done | | by unfold isConnected; rewrite Hws].
    destruct (reconnectTimer st) eqn:Ht; [| done].
    rewrite Htm in Hmanual; [done | by eexists].
Qed.

(** X13: the listeners form a set: in every reachable state no callback is
    listed twice, so subscribing a callback that is already subscribed
    does not change the count, and one call of the unsubscribe function
    removes the callback however often it was subscribed; unsubscribing
    the only listener closes the service. *)
Theorem feed_listeners_are_a_set :
  ∀ (baseUrl : string) (evs : list FeedEvent) (cb : nat) (c1 c2 : bool),
    NoDup (listeners (feed_run baseUrl evs))
    ∧ cb ∈ listeners (subscribe cb c1 (feed_run baseUrl evs))
    ∧ listeners (subscribe cb c2 (subscribe cb c1 (feed_run baseUrl evs)))
      = listeners (subscribe cb c1 (feed_run baseUrl evs))
    ∧ (cb ∉ listeners (unsubscribe cb
                         (subscribe cb c2 (subscribe cb c1 (feed_run baseUrl evs)))))
    ∧ (listeners (feed_run baseUrl evs) = [] →
       listeners (unsubscribe cb (subscribe cb c1 (feed_run baseUrl evs))) = []
       ∧ isManualClose (unsubscribe cb (subscribe cb c1 (feed_run baseUrl evs)))
         = true
       ∧ ws (unsubscribe cb (subscribe cb c1 (feed_run baseUrl evs))) = None
       ∧ reconnectTimer (unsubscribe cb (subscribe cb c1 (feed_run baseUrl evs)))
         = None).
Proof.
  intros baseUrl evs cb c1 c2.
  destruct (feed_run_invariant baseUrl evs) as [_ _ _ _ _ _ Hnodup _].
  set (st := feed_run baseUrl evs) in *.
  assert (Hsub : ∀ c st', listeners (subscribe cb c st') = Set_add cb (listeners st')).
  { intros c st'. unfold subscribe, connect.
    repeat (match goal with |- context [if ?b then _ else _] => destruct b end;
            cbn; try done).
    unfold scheduleReconnect. by destruct (reconnectTimer _). }
  assert (Hunsub : ∀ st', listeners (unsubscribe cb st') = Set_delete cb (listeners st')).
  { intros st'. unfold unsubscribe. by case_bool_decide. }
  split_and!.
  - done.
  - rewrite Hsub. apply Set_add_elem.
  - rewrite !Hsub. unfold Set_add at 1.
    by rewrite decide_True by apply Set_add_elem.
  - rewrite Hunsub. unfold Set_delete. rewrite list_elem_of_filter. naive_solver.
  - intros Hnil.
    assert (Hone : Set_delete cb (listeners (subscribe cb c1 st)) = []).
    { rewrite Hsub, Hnil. unfold Set_add, Set_delete.
      rewrite decide_False by apply not_elem_of_nil. cbn [app].
      rewrite filter_cons, decide_False by naive_solver. done. }
    unfold unsubscribe. rewrite bool_decide_eq_true_2 by (cbn; by rewrite Hone).
    by cbn.
Qed.

Lemma feed_run_snoc baseUrl (evs : list FeedEvent) (ev : FeedEvent) :
  feed_run baseUrl (evs ++ [ev]) = feed_step ev (feed_run baseUrl evs).
Proof. unfold feed_run. by rewrite foldl_snoc. Qed.

Lemma failed_rounds_S first n :
  failed_rounds first (S n)
  = failed_rounds first n ++ [EvTimerFires true; EvSocketClose (first + n)].
Proof.
  unfold failed_rounds. rewrite seq_S, fmap_app, join_app. by cbn.
Qed.

Lemma sockets_lookup_last (n : nat) (x : ReadyState) :
  (replicate n CLOSED ++ [x]) !! n = Some x.
Proof. apply list_lookup_middle. by rewrite length_replicate. Qed.

Lemma sockets_insert_last (n : nat) (x y : ReadyState) :
  <[n := y]> (replicate n CLOSED ++ [x]) = replicate n CLOSED ++ [y].
Proof.
  rewrite insert_app_r_alt by (rewrite length_replicate; lia).
  by rewrite length_replicate, Nat.sub_diag.
Qed.

Lemma replicate_snoc (n : nat) (x : ReadyState) :
  replicate n x ++ [x] = x :: replicate n x.
Proof. induction n as [| n IH]; [done |]. cbn. by rewrite IH. Qed.

(** The state after a first connection has failed and [n] more attempts
    have failed in turn. *)
Lemma feed_after_failed_rounds baseUrl cb (n : nat) :
  feed_run baseUrl
    (EvSubscribe cb true :: EvSocketClose 0 :: failed_rounds 1 n)
  = {| wsUrl := wsUrl_of baseUrl;
       ws := None;
       reconnectTimer := Some (Z.min (1000 * 2 ^ Z.of_nat n) maxReconnectDelay);
       listeners := [cb];
       reconnectDelay := Z.min (1000 * 2 ^ Z.of_nat n) maxReconnectDelay;
       isManualClose := false;
       sockets := replicate (S n) CLOSED |}.
Proof.
  induction n as [| n IH]; [reflexivity |].
  rewrite failed_rounds_S.
  change (EvSubscribe cb true :: EvSocketClose 0
          :: failed_rounds 1 n ++ [EvTimerFires true; EvSocketClose (1 + n)])
    with ((EvSubscribe cb true :: EvSocketClose 0 :: failed_rounds 1 n)
          ++ [EvTimerFires true] ++ [EvSocketClose (1 + n)]).
  rewrite (assoc_L (++)), !feed_run_snoc, IH. clear IH.
  cbn [feed_step]. unfold timer_fires, connect, isConnected.
  cbn [reconnectTimer ws sockets wsUrl listeners reconnectDelay isManualClose].
  rewrite length_replicate.
  unfold onclose.
  cbn [reconnectTimer ws sockets wsUrl listeners reconnectDelay isManualClose].
  change (1 + n) with (S n).
  rewrite sockets_lookup_last, sockets_insert_last.
  unfold wants_reconnect, scheduleReconnect.
  cbn [reconnectTimer ws sockets wsUrl listeners reconnectDelay isManualClose
       length bool_decide negb andb].
  rewrite bool_decide_eq_true_2 by lia. cbn [andb].
  assert (Hmin : Z.min (Z.min (1000 * 2 ^ Z.of_nat n) maxReconnectDelay * 2)
                   maxReconnectDelay
                 = Z.min (1000 * 2 ^ Z.of_nat (S n)) maxReconnectDelay).
  { rewrite Nat2Z.inj_succ, Z.pow_succ_r by lia. unfold maxReconnectDelay. lia. }
  rewrite Hmin. f_equal. by rewrite replicate_snoc.
Qed.

(** X14: exponential backoff. After a first connection has failed and [n]
    further attempts have each failed without opening, the next attempt is
    scheduled [min(1000 * 2^n, 30000)] milliseconds ahead; and as soon as
    an attempt opens, the delay is back at 1000, which is what a later
    loss of that connection waits first. *)
Theorem feed_backoff_doubles_until_open :
  ∀ (baseUrl : string) (cb n : nat),
    reconnectTimer
      (feed_run baseUrl
         (EvSubscribe cb true :: EvSocketClose 0 :: failed_rounds 1 n))
    = Some (Z.min (1000 * 2 ^ Z.of_nat n) maxReconnectDelay)
    ∧ reconnectDelay
        (feed_run baseUrl
           ((EvSubscribe cb true :: EvSocketClose 0 :: failed_rounds 1 n)
            ++ [EvTimerFires true; EvSocketOpen (S n)]))
      = 1000%Z
    ∧ reconnectTimer
        (feed_run baseUrl
           ((EvSubscribe cb true :: EvSocketClose 0 :: failed_rounds 1 n)
            ++ [EvTimerFires true; EvSocketOpen (S n); EvSocketClose (S n)]))
      = Some 1000%Z.
Proof.
  intros baseUrl cb n.
  assert (Hopen :
    feed_run baseUrl
      ((EvSubscribe cb true :: EvSocketClose 0 :: failed_rounds 1 n)
       ++ [EvTimerFires true; EvSocketOpen (S n)])
    = {| wsUrl := wsUrl_of baseUrl;
         ws := Some (S n);
         reconnectTimer := None;
         listeners := [cb];
         reconnectDelay := 1000;
         isManualClose := false;
         sockets := replicate (S n) CLOSED ++ [OPEN] |}).
  { change [EvTimerFires true; EvSocketOpen (S n)]
      with ([EvTimerFires true] ++ [EvSocketOpen (S n)]).
    rewrite (assoc_L (++)), !feed_run_snoc, feed_after_failed_rounds.
    cbn [feed_step]. unfold timer_fires, connect, isConnected.
    cbn [reconnectTimer ws sockets wsUrl listeners reconnectDelay isManualClose].
    rewrite length_replicate. unfold onopen.
    cbn [reconnectTimer ws sockets wsUrl listeners reconnectDelay isManualClose].
    rewrite sockets_lookup_last, sockets_insert_last.
    by rewrite bool_decide_eq_true_2. }
  split_and!.
  - by rewrite feed_after_failed_rounds.
  - by rewrite Hopen.
  - change [EvTimerFires true; EvSocketOpen (S n); EvSocketClose (S n)]
      with ([EvTimerFires true; EvSocketOpen (S n)] ++ [EvSocketClose (S n)]).
    rewrite (assoc_L (++)), feed_run_snoc, Hopen.
    cbn [feed_step]. unfold onclose.
    cbn [reconnectTimer ws sockets wsUrl listeners reconnectDelay isManualClose].
    rewrite sockets_lookup_last.
    unfold wants_reconnect, scheduleReconnect.
    cbn [reconnectTimer ws sockets wsUrl listeners reconnectDelay isManualClose
         length negb].
    by rewrite bool_decide_eq_true_2 by lia.
Qed.

End FeedProperties.

(** ** USD prices *)

Section UsdPrices.
Implicit Types (fetch : PriceRequest → FetchOutcome)
  (tokenIds : list TokenIdString) (options : option GetUsdPriceOptions)
  (m : list (string * string)) (k v c : string) (t : TokenIdString).

Lemma TokenIdString_wire_inj : Inj (=) (=) TokenIdString_wire.
Proof. intros [] [] Heq; (reflexivity || discriminate Heq). Qed.

(** Every token id of the API has a CoinGecko id, and it is not empty. *)
Lemma getCoinGeckoId_supported t :
  ∃ c, getCoinGeckoId t = Some c ∧ string_truthy c = true.
Proof. destruct t; eexists; split; reflexivity. Qed.

Lemma Map_set_keys k v m :
  (Map_set k v m).*1 = if decide (k ∈ m.*1) then m.*1 else m.*1 ++ [k].
Proof.
  induction m as [| [k' v'] m IH]; cbn.
  - by rewrite decide_False by apply not_elem_of_nil.
  - destruct (decide (k' = k)) as [-> | Hk]; cbn.
    + by rewrite decide_True by left.
    + rewrite IH. destruct (decide (k ∈ m.*1)) as [Hin | Hin].
      * by rewrite decide_True by by right.
      * rewrite decide_False; [done |]. rewrite elem_of_cons. naive_solver.
Qed.

Lemma Map_set_NoDup k v m : NoDup m.*1 → NoDup (Map_set k v m).*1.
Proof.
  intros Hm. rewrite Map_set_keys. case_decide as Hin; [done |].
  apply NoDup_app. split_and!; [done | | apply NoDup_singleton].
  intros x Hx ->%list_elem_of_singleton. done.
Qed.

Lemma Map_set_elem k v m k' v' :
  NoDup m.*1 →
  (k', v') ∈ Map_set k v m ↔ (k' = k ∧ v' = v) ∨ (k' ≠ k ∧ (k', v') ∈ m).
Proof.
  induction m as [| [k0 v0] m IH]; cbn; intros Hm.
  - rewrite list_elem_of_singleton, elem_of_nil. naive_solver.
  - apply NoDup_cons in Hm as [Hk0 Hm].
    destruct (decide (k0 = k)) as [-> | Hne].
    + rewrite !elem_of_cons. split.
      * intros [[= -> ->] | Hin]; [by left |]. right. split; [| by right].
        intros ->. apply Hk0. apply list_elem_of_fmap. by exists (k, v').
      * intros [[-> ->] | [Hne [[= -> ->] | Hin]]]; [by left | done | by right].
    + rewrite !elem_of_cons, IH by done. naive_solver.
Qed.

Lemma Map_get_Some k v m :
  NoDup m.*1 → Map_get k m = Some v ↔ (k, v) ∈ m.
Proof.
  intros Hm. unfold Map_get. split.
  - destruct (list_find _ m) as [[i [k' v']]|] eqn:Hfind; [| done].
    cbn. intros [= ->]. apply list_find_Some in Hfind as (Hi & Hk & _).
    cbn in Hk. subst k'. by eapply list_elem_of_lookup_2.
  - intros Hin. destruct (list_find (λ kv, kv.1 = k) m) as [[i [k' v']]|] eqn:Hfind.
    + apply list_find_Some in Hfind as (Hi & Hk & _). cbn in Hk. subst k'. cbn.
      f_equal. apply list_elem_of_lookup_2 in Hi.
      apply list_elem_of_lookup in Hin as [j Hj].
      apply list_elem_of_lookup in Hi as [i' Hi'].
      assert (i' = j) as ->.
      { eapply NoDup_lookup; [exact Hm | |];
          rewrite list_lookup_fmap; [by rewrite Hi' | by rewrite Hj]. }
      congruence.
    + apply list_find_None in Hfind. rewrite Forall_forall in Hfind.
      by destruct (Hfind _ Hin).
Qed.

Lemma tokenToCoinGecko_of_snoc tokenIds t c :
  getCoinGeckoId t = Some c →
  tokenToCoinGecko_of (tokenIds ++ [t])
  = Map_set (TokenIdString_wire t) c (tokenToCoinGecko_of tokenIds).
Proof.
  intros Hc. unfold tokenToCoinGecko_of. rewrite foldl_snoc, Hc.
  destruct (getCoinGeckoId_supported t) as (c' & Hc' & Htruthy).
  rewrite Hc in Hc'. injection Hc' as <-. by rewrite Htruthy.
Qed.

(** The map of the first loop has one entry per distinct token id of the
    input, carrying its CoinGecko id. *)
Lemma tokenToCoinGecko_of_spec tokenIds :
  NoDup (tokenToCoinGecko_of tokenIds).*1
  ∧ ∀ k c, (k, c) ∈ tokenToCoinGecko_of tokenIds
           ↔ ∃ t, t ∈ tokenIds ∧ TokenIdString_wire t = k
                  ∧ getCoinGeckoId t = Some c.
Proof.
  induction tokenIds as [| t tokenIds [Hnodup Hspec]] using rev_ind.
  - split; [constructor |]. intros k c. cbn. rewrite elem_of_nil.
    split; [done |]. intros (t & Ht & _). by apply elem_of_nil in Ht.
  - destruct (getCoinGeckoId_supported t) as (c0 & Hc0 & _).
    rewrite (tokenToCoinGecko_of_snoc _ _ _ Hc0).
    split; [by apply Map_set_NoDup |].
    intros k c. rewrite Map_set_elem, Hspec by done. split.
    + intros [[-> ->] | [Hne (t' & Ht' & Hk & Hc)]].
      * exists t. rewrite elem_of_app, list_elem_of_singleton. naive_solver.
      * exists t'. rewrite elem_of_app. naive_solver.
    + intros (t' & [Ht' | ->%list_elem_of_singleton]%elem_of_app & Hk & Hc).
      * destruct (decide (k = TokenIdString_wire t)) as [-> | Hne].
        -- apply TokenIdString_wire_inj in Hk as ->. left. split; congruence.
        -- right. split; [done |]. by exists t'.
      * left. split; congruence.
Qed.

Lemma tokenToCoinGecko_get tokenIds t :
  t ∈ tokenIds →
  Map_get (TokenIdString_wire t) (tokenToCoinGecko_of tokenIds) = getCoinGeckoId t.
Proof.
  intros Ht. destruct (tokenToCoinGecko_of_spec tokenIds) as [Hnodup Hspec].
  destruct (getCoinGeckoId_supported t) as (c & Hc & _). rewrite Hc.
  apply Map_get_Some; [done |]. apply Hspec. by exists t.
Qed.

Lemma Set_of_spec (values : list string) :
  NoDup (Set_of values) ∧ ∀ x, x ∈ Set_of values ↔ x ∈ values.
Proof.
  unfold Set_of. induction values as [| y values [Hnodup Hspec]] using rev_ind.
  - split; [constructor | done].
  - rewrite foldl_snoc. case_decide as Hin.
    + split; [done |]. intros x. rewrite elem_of_app, list_elem_of_singleton.
      rewrite Hspec. apply Hspec in Hin. naive_solver.
    + split.
      * apply NoDup_app. split_and!; [done | | apply NoDup_singleton].
        intros x Hx ->%list_elem_of_singleton. done.
      * intros x. rewrite !elem_of_app, Hspec. naive_solver.
Qed.

Lemma map_throwing_Ok {A B : Type} (f : A → Result B) (l : list A)
    (ys : list B) :
  map_throwing f l = Ok ys → Forall2 (λ x y, f x = Ok y) l ys.
Proof.
  revert ys. induction l as [| x l IH]; cbn; intros ys.
  - intros [= <-]. constructor.
  - destruct (f x) as [y | e] eqn:Hx; [| done].
    destruct (map_throwing f l) as [ys' | e]; [| done].
    intros [= <-]. constructor; [done | by apply IH].
Qed.

Lemma price_of_tokenId m (include : bool) (data : JsValue) t r :
  price_of m include data t = Ok r → UsdPriceResult.tokenId r = t.
Proof.
  unfold price_of. destruct (Map_get _ m) as [c|]; [| by intros [= <-]].
  destruct (negb (string_truthy c)); [by intros [= <-] |].
  destruct (js_index data c) as [priceData | e]; [| done].
  destruct (negb (js_truthy priceData)); [by intros [= <-] |].
  destruct (js_index priceData "usd"), (js_index priceData "usd_24h_change");
    try done.
  by intros [= <-].
Qed.

Lemma no_price_tokenIds tokenIds :
  UsdPriceResult.tokenId <$> (no_price <$> tokenIds) = tokenIds.
Proof. rewrite <- list_fmap_compose. by rewrite list_fmap_id. Qed.

(** X15: [getUsdPrices] answers for the tokens it was asked about, one
    result per token and in the order of the input, whatever the network
    does; and [change24h] is reported only when it was asked for. *)
Theorem usd_prices_follow_the_input :
  ∀ (fetch : PriceRequest → FetchOutcome) (tokenIds : list TokenIdString)
    (options : option GetUsdPriceOptions),
    UsdPriceResult.tokenId <$> getUsdPrices fetch tokenIds options = tokenIds
    ∧ length (getUsdPrices fetch tokenIds options) = length tokenIds
    ∧ (default false (options ≫= include24hChange) = false →
       Forall (λ r, UsdPriceResult.change24h r = None)
         (getUsdPrices fetch tokenIds options)).
Proof.
  intros fetch tokenIds options.
  assert (Hids : UsdPriceResult.tokenId <$> getUsdPrices fetch tokenIds options
                 = tokenIds).
  { unfold getUsdPrices.
    destruct (price_request tokenIds options) as [request|];
      [| apply no_price_tokenIds].
    destruct (fetch request) as [| status | | data]; try apply no_price_tokenIds.
    destruct (map_throwing _ tokenIds) as [results | e] eqn:Hmap;
      [| apply no_price_tokenIds].
    apply map_throwing_Ok in Hmap.
    induction Hmap as [| t r l rs Hr _ IH]; [done |]. cbn.
    by rewrite IH, (price_of_tokenId _ _ _ _ _ Hr). }
  split_and!; [done | |].
  - by rewrite <- (length_fmap UsdPriceResult.tokenId), Hids.
  - intros Hinclude.
    assert (Hnone : Forall (λ r, UsdPriceResult.change24h r = None)
                      (no_price <$> tokenIds)).
    { apply Forall_fmap, Forall_forall. by intros. }
    unfold getUsdPrices, price_request.
    case_bool_decide; [done |]. cbn [include_24hr_change]. rewrite Hinclude.
    destruct (fetch _) as [| status | | data]; try done.
    destruct (map_throwing _ tokenIds) as [results | e] eqn:Hmap; [| done].
    apply map_throwing_Ok in Hmap.
    induction Hmap as [| t r l rs Hr _ IH]; constructor; [| done].
    clear -Hr. unfold price_of in Hr.
    destruct (Map_get _ _) as [c|]; [| by injection Hr as <-].
    destruct (negb (string_truthy c)); [by injection Hr as <- |].
    destruct (js_index data c) as [priceData | e]; [| done].
    destruct (negb (js_truthy priceData)); [by injection Hr as <- |].
    destruct (js_index priceData "usd"), (js_index priceData "usd_24h_change");
      try done.
    by injection Hr as <-.
Qed.

End UsdPrices.

Section UsdPriceResults.
Implicit Types (fetch : PriceRequest → FetchOutcome)
  (tokenIds : list TokenIdString) (options : option GetUsdPriceOptions)
  (m : list (string * string)) (k v c : string) (t : TokenIdString).

Lemma price_request_None tokenIds options :
  price_request tokenIds options = None ↔ tokenIds = [].
Proof.
  unfold price_request. split.
  - case_bool_decide as Hlen; [| done]. intros _.
    destruct tokenIds as [| t tokenIds]; [done |]. exfalso.
    destruct (getCoinGeckoId_supported t) as (c & Hc & _).
    destruct (tokenToCoinGecko_of_spec (t :: tokenIds)) as [_ Hspec].
    assert (Hin : c ∈ Set_of (tokenToCoinGecko_of (t :: tokenIds)).*2).
    { apply Set_of_spec. apply list_elem_of_fmap.
      exists (TokenIdString_wire t, c). split; [done |].
      apply Hspec. exists t. split; [by left | done]. }
    apply length_zero_iff_nil in Hlen. rewrite Hlen in Hin.
    by apply elem_of_nil in Hin.
  - by intros ->.
Qed.

Lemma price_of_null_throws tokenIds (include : bool) t :
  t ∈ tokenIds →
  ∃ e, price_of (tokenToCoinGecko_of tokenIds) include JNull t = Err e.
Proof.
  intros Ht. unfold price_of. rewrite tokenToCoinGecko_get by done.
  destruct (getCoinGeckoId_supported t) as (c & -> & ->). cbn. by eexists.
Qed.

(** X16: when the request fails to be sent, the response is not OK, the
    body is not JSON or the body is [null], every token gets a [null]
    price and no [change24h]; a call for no tokens returns no results;
    and a request goes out exactly when at least one token is asked
    for. *)
Theorem usd_prices_are_null_on_failure :
  ∀ (tokenIds : list TokenIdString) (options : option GetUsdPriceOptions)
    (status : Z) (fetch : PriceRequest → FetchOutcome),
    getUsdPrices (λ _, FetchThrows) tokenIds options = no_price <$> tokenIds
    ∧ getUsdPrices (λ _, ResponseNotOk status) tokenIds options
      = no_price <$> tokenIds
    ∧ getUsdPrices (λ _, JsonThrows) tokenIds options = no_price <$> tokenIds
    ∧ getUsdPrices (λ _, JsonData JNull) tokenIds options = no_price <$> tokenIds
    ∧ getUsdPrices fetch [] options = []
    ∧ (price_request tokenIds options = None ↔ tokenIds = []).
Proof.
  intros tokenIds options status fetch. unfold getUsdPrices.
  split; [by destruct (price_request _ _) |].
  split; [by destruct (price_request _ _) |].
  split; [by destruct (price_request _ _) |].
  split; [| split].
  - destruct (price_request tokenIds options) as [request|] eqn:Hreq; [| done].
    destruct tokenIds as [| t tokenIds]; [done |].
    cbn [map_throwing].
    destruct (price_of_null_throws (t :: tokenIds)
                (include_24hr_change request) t) as [e ->]; [by left | done].
  - reflexivity.
  - apply price_request_None.
Qed.

Lemma price_of_same_coin m (include : bool) (data : JsValue) t1 t2 r1 r2 :
  Map_get (TokenIdString_wire t1) m = Map_get (TokenIdString_wire t2) m →
  price_of m include data t1 = Ok r1 →
  price_of m include data t2 = Ok r2 →
  UsdPriceResult.usdPrice r1 = UsdPriceResult.usdPrice r2
  ∧ UsdPriceResult.change24h r1 = UsdPriceResult.change24h r2.
Proof.
  unfold price_of. intros ->.
  destruct (Map_get _ m) as [c|]; [| by intros [= <-] [= <-]].
  destruct (negb (string_truthy c)); [by intros [= <-] [= <-] |].
  destruct (js_index data c) as [priceData | e]; [| done].
  destruct (negb (js_truthy priceData)); [by intros [= <-] [= <-] |].
  destruct (js_index priceData "usd"), (js_index priceData "usd_24h_change");
    try done.
  by intros [= <-] [= <-].
Qed.

Lemma Forall2_elem_r {A B : Type} (P : A → B → Prop) (l : list A) (k : list B) y :
  Forall2 P l k → y ∈ k → ∃ x, x ∈ l ∧ P x y.
Proof.
  induction 1 as [| x y' l k Hxy _ IH]; [by intros ?%elem_of_nil |].
  intros [-> | Hin]%elem_of_cons.
  - exists x. split; [by left | done].
  - destruct (IH Hin) as (x' & Hx' & HP). exists x'. split; [by right | done].
Qed.

(** X17: within one call, two tokens that share a CoinGecko id (Bitcoin on
    Lightning and on Arkade; a stablecoin on Polygon and on Ethereum) are
    given the same price and the same 24h change. *)
Theorem usd_prices_agree_per_coin :
  ∀ (fetch : PriceRequest → FetchOutcome) (tokenIds : list TokenIdString)
    (options : option GetUsdPriceOptions) (r1 r2 : UsdPriceResult.t),
    r1 ∈ getUsdPrices fetch tokenIds options →
    r2 ∈ getUsdPrices fetch tokenIds options →
    getCoinGeckoId (UsdPriceResult.tokenId r1)
    = getCoinGeckoId (UsdPriceResult.tokenId r2) →
    UsdPriceResult.usdPrice r1 = UsdPriceResult.usdPrice r2
    ∧ UsdPriceResult.change24h r1 = UsdPriceResult.change24h r2.
Proof.
  intros fetch tokenIds options r1 r2.
  assert (Hnull : ∀ r1 r2 : UsdPriceResult.t,
             r1 ∈ no_price <$> tokenIds → r2 ∈ no_price <$> tokenIds →
             UsdPriceResult.usdPrice r1 = UsdPriceResult.usdPrice r2
             ∧ UsdPriceResult.change24h r1 = UsdPriceResult.change24h r2).
  { intros r r' (t & -> & _)%list_elem_of_fmap (t' & -> & _)%list_elem_of_fmap.
    done. }
  unfold getUsdPrices.
  destruct (price_request tokenIds options) as [request|]; [| by auto].
  destruct (fetch request) as [| status | | data]; try by auto.
  destruct (map_throwing _ tokenIds) as [results | e] eqn:Hmap; [| by auto].
  apply map_throwing_Ok in Hmap. intros Hr1 Hr2 Hcoin.
  destruct (Forall2_elem_r _ _ _ _ Hmap Hr1) as (t1 & Ht1 & Hp1).
  destruct (Forall2_elem_r _ _ _ _ Hmap Hr2) as (t2 & Ht2 & Hp2).
  rewrite (price_of_tokenId _ _ _ _ _ Hp1), (price_of_tokenId _ _ _ _ _ Hp2)
    in Hcoin.
  eapply price_of_same_coin; [| exact Hp1 | exact Hp2].
  by rewrite !tokenToCoinGecko_get.
Qed.

Lemma usd_prices_agree_per_coin_witness :
  UsdPriceResult.usdPrice
    {| UsdPriceResult.tokenId := btc_lightning;
       UsdPriceResult.usdPrice := JNum 97000;
       UsdPriceResult.change24h := Some (JNum 2) |}
  = UsdPriceResult.usdPrice
      {| UsdPriceResult.tokenId := btc_arkade;
         UsdPriceResult.usdPrice := JNum 97000;
         UsdPriceResult.change24h := Some (JNum 2) |}
  ∧ UsdPriceResult.change24h
      {| UsdPriceResult.tokenId := btc_lightning;
         UsdPriceResult.usdPrice := JNum 97000;
         UsdPriceResult.change24h := Some (JNum 2) |}
    = UsdPriceResult.change24h
        {| UsdPriceResult.tokenId := btc_arkade;
           UsdPriceResult.usdPrice := JNum 97000;
           UsdPriceResult.change24h := Some (JNum 2) |}.
Proof.
  apply (usd_prices_agree_per_coin example_fetch
           [btc_lightning; usdt_eth; btc_arkade]
           (Some {| include24hChange := Some true |})).
  - apply list_elem_of_lookup. by exists 0.
  - apply list_elem_of_lookup. by exists 2.
  - reflexivity.
Defined.

Lemma price_of_object_total m (include : bool) (fields : list (string * JsValue)) t :
  ∃ r, price_of m include (JObj fields) t = Ok r.
Proof.
  unfold price_of. destruct (Map_get _ m) as [c|]; [| by eexists].
  destruct (negb (string_truthy c)); [by eexists |]. cbn [js_index].
  destruct (negb (js_truthy _)) eqn:Htruthy; [by eexists |].
  apply negb_false_iff in Htruthy.
  destruct (default JUndefined _) as [| | b | n | s | priceFields];
    try done; cbn; by eexists.
Qed.

Lemma map_throwing_total {A B : Type} (f : A → Result B) (l : list A) :
  (∀ x, ∃ y, f x = Ok y) → ∃ ys, map_throwing f l = Ok ys.
Proof.
  intros Hf. induction l as [| x l [ys IH]]; [by eexists |].
  cbn. destruct (Hf x) as [y ->]. rewrite IH. by eexists.
Qed.

(** X18: when the response body is an object, the result at a token's
    position carries the [usd] value the body lists under the token's
    CoinGecko id; a coin the body does not list gets a [null] price. *)
Theorem usd_prices_report_the_listed_price :
  ∀ (fetch : PriceRequest → FetchOutcome) (tokenIds : list TokenIdString)
    (options : option GetUsdPriceOptions) (request : PriceRequest)
    (fields : list (string * JsValue)) (i : nat) (t : TokenIdString) (c : string),
    price_request tokenIds options = Some request →
    fetch request = JsonData (JObj fields) →
    tokenIds !! i = Some t →
    getCoinGeckoId t = Some c →
    ∃ r, getUsdPrices fetch tokenIds options !! i = Some r
         ∧ UsdPriceResult.tokenId r = t
         ∧ (∀ priceFields,
              Object_fromEntries fields !! c = Some (JObj priceFields) →
              UsdPriceResult.usdPrice r
              = default JUndefined (Object_fromEntries priceFields !! "usd"))
         ∧ (Object_fromEntries fields !! c = None → r = no_price t).
Proof.
  intros fetch tokenIds options request fields i t c Hreq Hfetch Hi Hc.
  unfold getUsdPrices. rewrite Hreq, Hfetch.
  destruct (map_throwing_total
              (price_of (tokenToCoinGecko_of tokenIds)
                 (include_24hr_change request) (JObj fields)) tokenIds)
    as [results Hmap]; [intros x; apply price_of_object_total |].
  rewrite Hmap. apply map_throwing_Ok in Hmap.
  destruct (Forall2_lookup_l _ _ _ _ _ Hmap Hi) as (r & Hr & Hprice).
  exists r. split_and!; [done | by eapply price_of_tokenId | |].
  - intros priceFields Hfields. unfold price_of in Hprice.
    rewrite tokenToCoinGecko_get in Hprice
      by by eapply list_elem_of_lookup_2.
    destruct (getCoinGeckoId_supported t) as (c' & Hc' & Htruthy).
    rewrite Hc in Hc'. injection Hc' as <-.
    rewrite Hc, Htruthy in Hprice. cbn in Hprice. rewrite Hfields in Hprice.
    cbn in Hprice. by injection Hprice as <-.
  - intros Hnone. unfold price_of in Hprice.
    rewrite tokenToCoinGecko_get in Hprice
      by by eapply list_elem_of_lookup_2.
    destruct (getCoinGeckoId_supported t) as (c' & Hc' & Htruthy).
    rewrite Hc in Hc'. injection Hc' as <-.
    rewrite Hc, Htruthy in Hprice. cbn in Hprice. rewrite Hnone in Hprice.
    cbn in Hprice. by injection Hprice as <-.
Qed.

Lemma usd_prices_report_the_listed_price_witness :
  ∃ r, getUsdPrices example_fetch [btc_lightning; usdt_eth; btc_arkade]
         (Some {| include24hChange := Some true |}) !! 2 = Some r
       ∧ UsdPriceResult.tokenId r = btc_arkade
       ∧ (∀ priceFields,
            Object_fromEntries
              [ ("bitcoin", JObj [ ("usd", JNum 97000); ("usd_24h_change", JNum 2) ]);
                ("usd-coin", JObj [ ("usd", JNum 1) ]) ] !! "bitcoin"
            = Some (JObj priceFields) →
            UsdPriceResult.usdPrice r
            = default JUndefined (Object_fromEntries priceFields !! "usd"))
       ∧ (Object_fromEntries
            [ ("bitcoin", JObj [ ("usd", JNum 97000); ("usd_24h_change", JNum 2) ]);
              ("usd-coin", JObj [ ("usd", JNum 1) ]) ] !! "bitcoin" = None →
          r = no_price btc_arkade).
Proof.
  apply (usd_prices_report_the_listed_price example_fetch
           [btc_lightning; usdt_eth; btc_arkade]
           (Some {| include24hChange := Some true |})
           {| ids := ["bitcoin"; "tether"]; vs_currencies := "usd";
              include_24hr_change := true |}
           [ ("bitcoin", JObj [ ("usd", JNum 97000); ("usd_24h_change", JNum 2) ]);
             ("usd-coin", JObj [ ("usd", JNum 1) ]) ]
           2 btc_arkade "bitcoin"); reflexivity.
Defined.

(** X19: the request for a non-empty list of tokens asks for each needed
    CoinGecko id once: its ids are the ids of the tokens asked for, without
    repetition; the currency is [usd], and the 24h change is requested
    exactly when the option says so. *)
Theorem usd_price_request_has_each_coin_once :
  ∀ (tokenIds : list TokenIdString) (options : option GetUsdPriceOptions),
    tokenIds ≠ [] →
    ∃ request,
      price_request tokenIds options = Some request
      ∧ NoDup (ids request)
      ∧ (∀ c, c ∈ ids request ↔ ∃ t, t ∈ tokenIds ∧ getCoinGeckoId t = Some c)
      ∧ vs_currencies request = "usd"
      ∧ include_24hr_change request
        = default false (options ≫= include24hChange).
Proof.
  intros tokenIds options Hne.
  destruct (price_request tokenIds options) as [request|] eqn:Hreq.
  2:{ by apply price_request_None in Hreq. }
  exists request. unfold price_request in Hreq.
  case_bool_decide; [done |]. injection Hreq as <-. cbn.
  destruct (Set_of_spec (tokenToCoinGecko_of tokenIds).*2) as [Hnodup Hset].
  destruct (tokenToCoinGecko_of_spec tokenIds) as [_ Hspec].
  split_and!; [done | done | | done | done].
  intros c. rewrite Hset, list_elem_of_fmap. split.
  - intros ([k c'] & -> & (t & Ht & _ & Hc)%Hspec). by exists t.
  - intros (t & Ht & Hc). exists (TokenIdString_wire t, c). split; [done |].
    apply Hspec. by exists t.
Qed.

Lemma usd_price_request_has_each_coin_once_witness :
  ∃ request,
    price_request [btc_lightning; usdt_eth; btc_arkade] None = Some request
    ∧ NoDup (ids request)
    ∧ (∀ c, c ∈ ids request
            ↔ ∃ t, t ∈ [btc_lightning; usdt_eth; btc_arkade]
                   ∧ getCoinGeckoId t = Some c)
    ∧ vs_currencies request = "usd"
    ∧ include_24hr_change request = default false (None ≫= include24hChange).
Proof.
  apply (usd_price_request_has_each_coin_once
           [btc_lightning; usdt_eth; btc_arkade] None).
  discriminate.
Defined.

End UsdPriceResults.
